(** * Wikipedia-Word-Picker: a shallow embedding of [main.go]

    The development follows the source file top-down: Go text as sequences
    of runes, the selector [PickRandomUniqueWords] with its random draws
    supplied by an explicit source, the text extractor over the parsed
    node tree, the [used_words] table behind [storeUsedWords] and
    [getUsedWords], and the request handler [pickHandler]. *)

From Stdlib Require Import ZArith List Lia.
From Stdlib Require Import Ascii String.
From stdpp Require Import gmap list strings.

Open Scope Z_scope.

(** ** Go text

    A Go string is a sequence of bytes.  The program compares strings with
    [==], uses them as map keys, joins them in a [strings.Builder], and reads
    them through [for _, r := range s], which decodes UTF-8 and yields runes
    ([int32] code points).  The strings that reach the program from outside
    (the text of a parsed node) are kept as their bytes and read through
    [runes] below.  A string the program writes rune by rune ([WriteRune]) is
    valid UTF-8 and is kept as the sequence of its runes.  For ASCII text the
    bytes and the runes are the same numbers. *)

Abbreviation rune := Z (only parsing).
Abbreviation gostring := (list Z) (only parsing).

(** U+FFFD, what [range] yields for a byte that begins no valid sequence. *)
Definition RuneError : rune := 65533.

(** A continuation byte, [locb <= b && b <= hicb]. *)
Definition continuation (b : Z) : bool := (128 <=? b) && (b <=? 191).

(** What [for _, r := range s] yields on the bytes [s], after [decoderune]
    of the Go runtime: a byte below 0x80 is its own rune; a lead byte with
    the continuation bytes it needs gives the rune they encode, unless the
    encoding is overlong, a surrogate or beyond U+10FFFF; anything else gives
    U+FFFD and the reading goes on at the next byte. *)
Fixpoint runes (s : gostring) : list rune :=
  match s with
  | [] => []
  | b0 :: s1 =>
      if b0 <? 128 then b0 :: runes s1
      else if (192 <=? b0) && (b0 <? 224) then
        match s1 with
        | b1 :: s2 =>
            let r := Z.lor (Z.shiftl (Z.land b0 31) 6) (Z.land b1 63) in
            if continuation b1 && (127 <? r) then r :: runes s2
            else RuneError :: runes s1
        | [] => RuneError :: runes s1
        end
      else if (224 <=? b0) && (b0 <? 240) then
        match s1 with
        | b1 :: b2 :: s3 =>
            let r := Z.lor (Z.lor (Z.shiftl (Z.land b0 15) 12)
                                  (Z.shiftl (Z.land b1 63) 6))
                           (Z.land b2 63) in
            if continuation b1 && continuation b2 && (2047 <? r)
               && negb ((55296 <=? r) && (r <=? 57343))
            then r :: runes s3
            else RuneError :: runes s1
        | _ => RuneError :: runes s1
        end
      else if (240 <=? b0) && (b0 <? 248) then
        match s1 with
        | b1 :: b2 :: b3 :: s4 =>
            let r := Z.lor (Z.lor (Z.lor (Z.shiftl (Z.land b0 7) 18)
                                         (Z.shiftl (Z.land b1 63) 12))
                                  (Z.shiftl (Z.land b2 63) 6))
                           (Z.land b3 63) in
            if continuation b1 && continuation b2 && continuation b3
               && (65535 <? r) && (r <=? 1114111)
            then r :: runes s4
            else RuneError :: runes s1
        | _ => RuneError :: runes s1
        end
      else RuneError :: runes s1
  end.

(** The bytes are valid UTF-8 ([utf8.ValidString]): reading them meets no
    byte that begins no valid sequence. *)
Fixpoint validUTF8 (s : gostring) : bool :=
  match s with
  | [] => true
  | b0 :: s1 =>
      if b0 <? 128 then validUTF8 s1
      else if (192 <=? b0) && (b0 <? 224) then
        match s1 with
        | b1 :: s2 =>
            let r := Z.lor (Z.shiftl (Z.land b0 31) 6) (Z.land b1 63) in
            if continuation b1 && (127 <? r) then validUTF8 s2 else false
        | [] => false
        end
      else if (224 <=? b0) && (b0 <? 240) then
        match s1 with
        | b1 :: b2 :: s3 =>
            let r := Z.lor (Z.lor (Z.shiftl (Z.land b0 15) 12)
                                  (Z.shiftl (Z.land b1 63) 6))
                           (Z.land b2 63) in
            if continuation b1 && continuation b2 && (2047 <? r)
               && negb ((55296 <=? r) && (r <=? 57343))
            then validUTF8 s3
            else false
        | _ => false
        end
      else if (240 <=? b0) && (b0 <? 248) then
        match s1 with
        | b1 :: b2 :: b3 :: s4 =>
            let r := Z.lor (Z.lor (Z.lor (Z.shiftl (Z.land b0 7) 18)
                                         (Z.shiftl (Z.land b1 63) 12))
                                  (Z.shiftl (Z.land b2 63) 6))
                           (Z.land b3 63) in
            if continuation b1 && continuation b2 && continuation b3
               && (65535 <? r) && (r <=? 1114111)
            then validUTF8 s4
            else false
        | _ => false
        end
      else false
  end.

(** An [error] is represented by its text, [err.Error()]. *)
Abbreviation error := (list Z) (only parsing).

(** An ASCII literal of the source: its bytes, which are also its runes. *)
Definition lit (s : string) : gostring :=
  (fun a => Z.of_N (N_of_ascii a)) <$> list_ascii_of_string s.

(** ** Word Selector *)

(** What a call can do: return, panic, or still be running when the
    number of loop iterations we are willing to follow is used up. *)
Inductive outcome : Type :=
| Returned (ws : list gostring)
| Panicked
| Running.

(** [math/rand]: the value of the [i]-th call of [rand.Intn(k)] is chosen by
    a source [rng]; it lies in [0, k).  [rand.Intn(0)] panics, which the
    list lookup below turns into [Panicked]. *)
Definition source := nat -> nat.

Definition Intn (rng : source) (i : nat) (k : nat) : nat := (rng i mod k)%nat.

(** Check if a word is in an array. *)
Fixpoint contains (words : list gostring) (word : gostring) : bool :=
  match words with
  | [] => false
  | value :: rest => if decide (value = word) then true else contains rest word
  end.

(** The [for { ... }] loop of [PickRandomUniqueWords]; [i] counts the calls
    already made to [rand.Intn], [randomWords] is the slice built so far. *)
Fixpoint pick_loop (fuel : nat) (rng : source) (i : nat)
    (words : list gostring) (n : Z) (usedBefore : gset gostring)
    (randomWords : list gostring) : outcome :=
  match fuel with
  | O => Running
  | S fuel' =>
      match words !! Intn rng i (length words) with
      | None => Panicked
      | Some word =>
          if bool_decide (word ∈ usedBefore) || contains randomWords word
          then pick_loop fuel' rng (S i) words n usedBefore randomWords
          else
            let randomWords := randomWords ++ [word] in
            if Z.of_nat (length randomWords) =? n
            then Returned randomWords
            else pick_loop fuel' rng (S i) words n usedBefore randomWords
      end
  end.

(** [make([]string, 0, n)] panics at run time when the capacity [n] is
    negative. *)
Definition PickRandomUniqueWords (fuel : nat) (rng : source)
    (words : list gostring) (n : Z) (usedBefore : gset gostring) : outcome :=
  if n >=? Z.of_nat (length words) then Returned words
  else if n <? 0 then Panicked
  else pick_loop fuel rng O words n usedBefore [].

(** *** Vocabulary of the selector's specification *)

(** The words handed out by the first [k] draws. *)
Definition drawn (rng : source) (words : list gostring) (k : nat)
  : list gostring :=
  omap (fun i => words !! Intn rng i (length words)) (seq 0 k).

(** Keep the first occurrence of every element, in order. *)
Fixpoint first_occurrences (l : list gostring) : list gostring :=
  match l with
  | [] => []
  | x :: l' => x :: filter (fun y => y ≠ x) (first_occurrences l')
  end.

(** The words a run accepts out of a sequence of draws, in the order
    accepted: those not excluded, each at its first draw. *)
Definition accepted (usedBefore : gset gostring) (draws : list gostring)
  : list gostring :=
  first_occurrences (filter (fun w => w ∉ usedBefore) draws).

(** The distinct words of the pool that are not excluded. *)
Definition eligible (words : list gostring) (usedBefore : gset gostring)
  : list gostring :=
  remove_dups (filter (fun w => w ∉ usedBefore) words).

(** Every index of the pool keeps being drawn. *)
Definition fair (rng : source) (len : nat) : Prop :=
  forall i idx, (idx < len)%nat -> exists j, (i <= j)%nat /\ Intn rng j len = idx.

Definition never_returns (rng : source) (words : list gostring) (n : Z)
    (usedBefore : gset gostring) : Prop :=
  forall fuel, PickRandomUniqueWords fuel rng words n usedBefore = Running.

(** The slice holds eligible words, each once. *)
Definition slice_ok (words : list gostring) (used : gset gostring)
    (acc : list gostring) : Prop :=
  NoDup acc /\ forall w, w ∈ acc -> w ∈ eligible words used.

(** How the loop goes on once the slice has grown by one word. *)
Definition goes_on (rng : source) (words : list gostring) (n : Z)
    (used : gset gostring) (acc : list gostring) : Prop :=
  forall i' acc', slice_ok words used acc' -> length acc' = S (length acc) ->
    Z.of_nat (length acc') <> n ->
    exists fuel out, pick_loop fuel rng i' words n used acc' = Returned out.

(** ** Text Extractor *)

(** The functions of package [unicode] the program calls.  Their tables are
    not part of this repository; the extractor is parametric in them. *)
Class Unicode := {
  IsLetter : rune -> bool;
  IsSpace : rune -> bool;
  ToLower : rune -> rune
}.

(** The apostrophe, ['\''] in the source. *)
Definition apostrophe : rune := 39.

(** Two facts about the tables of [unicode]: lowercasing moves neither
    white space nor the apostrophe. *)
Record UnicodeLaws (U : Unicode) : Prop := {
  ToLower_IsSpace : forall r, IsSpace r = true -> ToLower r = r;
  ToLower_apostrophe : ToLower apostrophe = apostrophe
}.

(** The ASCII part of the tables. *)
Definition ascii_IsLetter (r : rune) : bool :=
  ((65 <=? r) && (r <=? 90)) || ((97 <=? r) && (r <=? 122)).

Definition ascii_IsSpace (r : rune) : bool :=
  ((9 <=? r) && (r <=? 13)) || (r =? 32).

Definition ascii_ToLower (r : rune) : rune :=
  if (65 <=? r) && (r <=? 90) then r + 32 else r.

Definition ascii_unicode : Unicode :=
  {| IsLetter := ascii_IsLetter; IsSpace := ascii_IsSpace;
     ToLower := ascii_ToLower |}.

(** The Latin-1 part of the tables. *)
Definition latin1_IsLetter (r : rune) : bool :=
  ascii_IsLetter r || (r =? 170) || (r =? 181) || (r =? 186)
  || ((192 <=? r) && (r <=? 214)) || ((216 <=? r) && (r <=? 246))
  || ((248 <=? r) && (r <=? 255)).

Definition latin1_IsSpace (r : rune) : bool :=
  ascii_IsSpace r || (r =? 133) || (r =? 160).

Definition latin1_ToLower (r : rune) : rune :=
  if ((65 <=? r) && (r <=? 90)) || ((192 <=? r) && (r <=? 214))
     || ((216 <=? r) && (r <=? 222))
  then r + 32 else r.

Definition latin1_unicode : Unicode :=
  {| IsLetter := latin1_IsLetter; IsSpace := latin1_IsSpace;
     ToLower := latin1_ToLower |}.

(** [html.Node] of golang.org/x/net/html: the [FirstChild]/[NextSibling]
    chain of a node is the list of its children; [Data] is a string as the
    parser left it, kept as its bytes. *)
Inductive NodeType : Type :=
| ErrorNode | TextNode | DocumentNode | ElementNode
| CommentNode | DoctypeNode | RawNode.

#[local] Set Warnings "-register-all".

Inductive Node : Type :=
| MkNode (type : NodeType) (data : gostring) (children : list Node).

Definition NType (n : Node) : NodeType := let 'MkNode t _ _ := n in t.
Definition Data (n : Node) : gostring := let 'MkNode _ d _ := n in d.
Definition Children (n : Node) : list Node := let 'MkNode _ _ cs := n in cs.

Definition isTextNode (t : NodeType) : bool :=
  match t with TextNode => true | _ => false end.

Definition isElementNode (t : NodeType) : bool :=
  match t with ElementNode => true | _ => false end.

(** getText recursively retrieves all text content within a node; the
    accumulator of the inner loop is the [strings.Builder], which joins the
    bytes of the strings written to it. *)
Fixpoint getText (n : Node) : gostring :=
  match n with
  | MkNode t d cs =>
      let builder := if isTextNode t then d else [] in
      fold_left (fun builder c => builder ++ getText c) cs builder
  end.

Section Extractor.
Context {U : Unicode}.

(** RemovePunctuation keeps letters, whitespace and apostrophes, and
    writes each kept rune through [unicode.ToLower].  Its argument is the
    runes its loop reads from the string it is given; its result is the
    string it writes, as the runes written. *)
Definition RemovePunctuation (s : gostring) : gostring :=
  fold_left
    (fun builder r =>
       if IsLetter r || IsSpace r || (r =? apostrophe)
       then builder ++ [ToLower r]
       else builder)
    s [].

(** [strings.Fields], after the loop of [strings.FieldsFunc], on a string
    given as its runes: [start] is the index at which the field being read
    began, if one is being read, [end_] the index of the rune looked at,
    [spans] the fields found. *)
Fixpoint fieldsSpans (s : gostring) (end_ : nat) (start : option nat)
    (spans : list (nat * nat)) : list (nat * nat) :=
  match s with
  | [] =>
      match start with
      | Some st => spans ++ [(st, end_)]
      | None => spans
      end
  | r :: s' =>
      if IsSpace r then
        match start with
        | Some st => fieldsSpans s' (S end_) None (spans ++ [(st, end_)])
        | None => fieldsSpans s' (S end_) None spans
        end
      else
        match start with
        | Some _ => fieldsSpans s' (S end_) start spans
        | None => fieldsSpans s' (S end_) (Some end_) spans
        end
  end.

(** [s[a:b]] *)
Definition slice (s : gostring) (span : nat * nat) : gostring :=
  take (span.2 - span.1)%nat (drop span.1 s).

Definition Fields (s : gostring) : list gostring :=
  slice s <$> fieldsSpans s 0 None [].

(** The closure [traverse] of [ExtractWordsFromParagraphs]; the captured
    variable [words] is threaded through.  [RemovePunctuation] ranges over
    the string [getText] returns, that is over [runes] of its bytes. *)
Fixpoint traverse (n : Node) (words : list gostring) : list gostring :=
  match n with
  | MkNode t d cs =>
      let words :=
        if isElementNode t && bool_decide (d = lit "p")
        then words ++ Fields (RemovePunctuation (runes (getText n)))
        else words in
      fold_left (fun words c => traverse c words) cs words
  end.

(** [html.Parse] is an external of the repository. *)
Definition ExtractWordsFromParagraphs
    (Parse : gostring -> Node + error) (htmlContent : gostring)
  : list gostring + error :=
  match Parse htmlContent with
  | inr err => inr (lit "failed to parse HTML: " ++ err)
  | inl doc => inl (traverse doc [])
  end.

(** *** The extraction as the specification words it *)

(** The [<p>] elements of a tree that lie inside no other [<p>] element,
    in depth-first document order. *)
Fixpoint outerParagraphs (n : Node) : list Node :=
  match n with
  | MkNode t d cs =>
      if isElementNode t && bool_decide (d = lit "p") then [n]
      else flat_map outerParagraphs cs
  end.

(** Every [<p>] element of a tree, those inside another [<p>] too, each
    before the elements inside it. *)
Fixpoint paragraphs (n : Node) : list Node :=
  match n with
  | MkNode t d cs =>
      (if isElementNode t && bool_decide (d = lit "p") then [n] else [])
      ++ flat_map paragraphs cs
  end.

(** The text nodes inside a node, in depth-first document order. *)
Fixpoint textNodes (n : Node) : list gostring :=
  match n with
  | MkNode t d cs =>
      (if isTextNode t then [d] else []) ++ flat_map textNodes cs
  end.

(** Keep letters, white space and apostrophes; drop everything else. *)
Definition retained (r : rune) : bool :=
  IsLetter r || IsSpace r || (r =? apostrophe).

(** Lowercase the letters. *)
Definition lowerLetter (r : rune) : rune :=
  if IsLetter r then ToLower r else r.

Definition normalize (s : gostring) : gostring :=
  lowerLetter <$> filter (fun r => retained r = true) s.

(** Cut at every white-space rune; two adjacent cuts leave an empty piece. *)
Fixpoint pieces (s : gostring) : list gostring :=
  match s with
  | [] => [[]]
  | r :: s' =>
      if IsSpace r then [] :: pieces s'
      else match pieces s' with
           | p :: ps => (r :: p) :: ps
           | [] => [[r]]
           end
  end.

(** Split on runs of white space, empty tokens discarded. *)
Definition tokens (s : gostring) : list gostring :=
  filter (fun p => p ≠ []) (pieces s).

(** The tokens of the text inside one [<p>] element. *)
Definition paragraphTokens (p : Node) : list gostring :=
  tokens (normalize (runes (concat (textNodes p)))).

(** The text inside the [<p>] elements, taken once and in document
    order, cut into tokens. *)
Definition extractSpec (doc : Node) : list gostring :=
  flat_map paragraphTokens (outerParagraphs doc).

(** One run of tokens for every [<p>] element, nested ones included. *)
Definition perParagraph (doc : Node) : list gostring :=
  flat_map paragraphTokens (paragraphs doc).

(** The tree holds a [<p>] element. *)
Fixpoint hasParagraph (n : Node) : bool :=
  match n with
  | MkNode t d cs =>
      (isElementNode t && bool_decide (d = lit "p")) || existsb hasParagraph cs
  end.

(** Some [<p>] element of the tree lies inside another. *)
Fixpoint nestedParagraph (n : Node) : bool :=
  match n with
  | MkNode t d cs =>
      ((isElementNode t && bool_decide (d = lit "p")) && existsb hasParagraph cs)
      || existsb nestedParagraph cs
  end.

(** Rewrite the text nodes that lie outside every [<p>] element. *)
Fixpoint rewriteOutside (f : gostring -> gostring) (n : Node) : Node :=
  match n with
  | MkNode t d cs =>
      if isElementNode t && bool_decide (d = lit "p") then n
      else MkNode t (if isTextNode t then f d else d)
             (map (rewriteOutside f) cs)
  end.

(** No white space in the piece. *)
Definition spaceless (s : list Z) : Prop := Forall (fun r => IsSpace r = false) s.

(** The field being read, given where it began. *)
Definition reading (pre : list Z) (start : option nat) : list Z :=
  match start with
  | Some st => drop st pre
  | None => []
  end.

Definition start_ok (pre : list Z) (start : option nat) : Prop :=
  match start with
  | Some st => (st < length pre)%nat /\ spaceless (drop st pre)
  | None => True
  end.

End Extractor.

(** The document [html.Parse] builds from
    [<p>Hello, World's Best!</p><table>Ignored</table>]: the text of the
    table is moved in front of it. *)
Definition example_doc : Node :=
  MkNode DocumentNode []
    [MkNode ElementNode (lit "html")
       [MkNode ElementNode (lit "head") [];
        MkNode ElementNode (lit "body")
          [MkNode ElementNode (lit "p")
             [MkNode TextNode (lit "Hello, World's Best!") []];
           MkNode TextNode (lit "Ignored") [];
           MkNode ElementNode (lit "table") []]]].

(** The document [html.Parse] builds from
    [<p>outer <button><p>inner one</p></button> tail</p>]: inside the
    button the second [<p>] does not close the first. *)
Definition nested_doc : Node :=
  MkNode DocumentNode []
    [MkNode ElementNode (lit "html")
       [MkNode ElementNode (lit "head") [];
        MkNode ElementNode (lit "body")
          [MkNode ElementNode (lit "p")
             [MkNode TextNode (lit "outer ") [];
              MkNode ElementNode (lit "button")
                [MkNode ElementNode (lit "p")
                   [MkNode TextNode (lit "inner one") []]];
              MkNode TextNode (lit " tail") []]]]].

(** A paragraph in which a two-byte sequence (0xC3 0xA9, U+00E9) is split
    between two text nodes. *)
Definition split_sequence_doc : Node :=
  MkNode ElementNode (lit "p")
    [MkNode TextNode (lit "caf" ++ [195]) [];
     MkNode ElementNode (lit "b") [MkNode TextNode [169] []];
     MkNode TextNode (lit " ok") []].

(** ** Usage Store *)

(** A record of [used_words]: (word, language). *)
Abbreviation row := (list Z * list Z)%type (only parsing).

(** Calls into [database/sql] can fail.  A fault plan names, for the [k]-th
    call made on the handle, the error it fails with, if it does. *)
Definition faults := nat -> option error.

(** The state behind the global [db]: the rows of table [used_words] in
    [words.db] ([None] while the table does not exist), the rows written by
    the open transaction and not yet committed, and the number of calls made
    so far. *)
Record Store : Type := {
  used_words : option (list row);
  pending : list row;
  calls : nat
}.

Definition tick (s : Store) : Store :=
  {| used_words := used_words s; pending := pending s; calls := S (calls s) |}.

Definition no_such_table : error := lit "no such table: used_words".

(** [CREATE TABLE IF NOT EXISTS used_words (..., PRIMARY KEY(word, language))] *)
Definition createTable (fl : faults) (s : Store) : option error * Store :=
  match fl (calls s) with
  | Some e => (Some e, tick s)
  | None =>
      (None, tick {| used_words := Some (default [] (used_words s));
                     pending := pending s; calls := calls s |})
  end.

(** [sql.Open] *)
Definition Open (fl : faults) (s : Store) : option error * Store :=
  (fl (calls s), tick s).

Definition initDB (fl : faults) (s : Store) : option error * Store :=
  let '(err, s) := Open fl s in
  match err with
  | Some e => (Some e, s)
  | None => createTable fl s
  end.

(** [db.Begin] *)
Definition Begin (fl : faults) (s : Store) : option error * Store :=
  match fl (calls s) with
  | Some e => (Some e, tick s)
  | None =>
      (None, tick {| used_words := used_words s; pending := [];
                     calls := calls s |})
  end.

(** [tx.Prepare]: the statement is compiled against the schema, and is
    refused when the table does not exist. *)
Definition Prepare (fl : faults) (s : Store) : option error * Store :=
  match fl (calls s) with
  | Some e => (Some e, tick s)
  | None =>
      match used_words s with
      | None => (Some no_such_table, tick s)
      | Some _ => (None, tick s)
      end
  end.

(** [stmt.Exec] of [INSERT OR IGNORE INTO used_words(word,language)]: the
    primary key (word, language) makes the insertion of a pair that is
    already in the table, or already written by this transaction, do
    nothing. *)
Definition Exec (fl : faults) (r : row) (s : Store) : option error * Store :=
  match fl (calls s) with
  | Some e => (Some e, tick s)
  | None =>
      match used_words s with
      | None => (Some no_such_table, tick s)
      | Some rows =>
          if bool_decide (r ∈ rows ++ pending s) then (None, tick s)
          else (None, tick {| used_words := used_words s;
                              pending := pending s ++ [r];
                              calls := calls s |})
      end
  end.

(** [tx.Rollback]; its result is not looked at. *)
Definition Rollback (s : Store) : Store :=
  tick {| used_words := used_words s; pending := []; calls := calls s |}.

(** [tx.Commit] *)
Definition Commit (fl : faults) (s : Store) : option error * Store :=
  match fl (calls s) with
  | Some e =>
      (Some e, tick {| used_words := used_words s; pending := [];
                       calls := calls s |})
  | None =>
      (None, tick {| used_words := (fun rows => rows ++ pending s) <$> used_words s;
                     pending := []; calls := calls s |})
  end.

(** The [for _, word := range words] loop of [storeUsedWords], followed by
    the commit. *)
Fixpoint storeLoop (fl : faults) (words : list gostring) (language : gostring)
    (s : Store) : option error * Store :=
  match words with
  | [] => Commit fl s
  | word :: rest =>
      let '(err, s) := Exec fl (word, language) s in
      match err with
      | Some e => (Some e, Rollback s)
      | None => storeLoop fl rest language s
      end
  end.

Definition storeUsedWords (fl : faults) (words : list gostring)
    (language : gostring) (s : Store) : option error * Store :=
  let '(err, s) := Begin fl s in
  match err with
  | Some e => (Some e, s)
  | None =>
      let '(err, s) := Prepare fl s in
      match err with
      | Some e => (Some e, s)
      | None => storeLoop fl words language s
      end
  end.

(** [db.Query] of [SELECT word FROM used_words WHERE language=?] *)
Definition Query (fl : faults) (language : gostring) (s : Store)
  : (list gostring + error) * Store :=
  match fl (calls s) with
  | Some e => (inr e, tick s)
  | None =>
      match used_words s with
      | None => (inr no_such_table, tick s)
      | Some rows =>
          (inl (fst <$> filter (fun r : row => r.2 = language) rows), tick s)
      end
  end.

(** The [for rows.Next()] loop of [getUsedWords].  [rows.Next] answers
    false at the end of the rows and also when it fails; the loop does not
    tell the two apart ([rows.Err] is not called). *)
Fixpoint scanRows (fl : faults) (rows : list gostring)
    (used : gset gostring) (s : Store) : (gset gostring + error) * Store :=
  match rows with
  | [] => (inl used, tick s)
  | word :: rest =>
      match fl (calls s) with
      | Some _ => (inl used, tick s)
      | None =>
          let s := tick s in
          match fl (calls s) with
          | Some e => (inr e, tick s)
          | None => scanRows fl rest ({[word]} ∪ used) (tick s)
          end
      end
  end.

Definition getUsedWords (fl : faults) (language : gostring) (s : Store)
  : (gset gostring + error) * Store :=
  let '(rows, s) := Query fl language s in
  match rows with
  | inr e => (inr e, s)
  | inl rows => scanRows fl rows ∅ s
  end.

(** What a batch leaves in the table once committed. *)
Definition insertAll (rows : list (list Z * list Z)) (words : list (list Z))
    (language : list Z) : list (list Z * list Z) :=
  fold_left
    (fun rows word =>
       if bool_decide ((word, language) ∈ rows) then rows
       else rows ++ [(word, language)])
    words rows.

(** The calls of [storeUsedWords] on a list of batches, one after the
    other. *)
Fixpoint storeAll (fl : faults) (batches : list (list (list Z) * list Z))
    (s : Store) : Store :=
  match batches with
  | [] => s
  | (words, language) :: rest =>
      storeAll fl rest (storeUsedWords fl words language s).2
  end.

(** The second [stmt.Exec] of a batch fails. *)
Definition second_insert_fails : faults :=
  fun k => if (k =? 3)%nat then Some (lit "disk I/O error") else None.

(** The words recorded for a language. *)
Definition recorded (language : gostring) (s : Store) : gset gostring :=
  list_to_set
    (fst <$> filter (fun r : row => r.2 = language) (default [] (used_words s))).

(** No call from number [k] on meets a fault. *)
Definition quiet_from (fl : faults) (k : nat) : Prop :=
  forall j, (k <= j)%nat -> fl j = None.

(** ** Request Handler *)

Definition randomArticleURLByLanguage : gmap (list Z) (list Z) :=
  {[ lit "en" := lit "https://en.wikipedia.org/wiki/Special:Random";
     lit "fr" := lit "https://fr.wikipedia.org/wiki/Sp%C3%A9cial:Page_au_hasard";
     lit "de" := lit "https://de.wikipedia.org/wiki/Spezial:Zuf%C3%A4llige_Seite" ]}.

(** Indexing a Go map with a key it does not hold gives the zero value. *)
Definition urlFor (language : gostring) : gostring :=
  default [] (randomArticleURLByLanguage !! language).

Record Response : Type := {
  Language : gostring;
  Words : list gostring
}.

(** The query of [r.URL]: its (key, value) pairs in the order written. *)
Record Request : Type := {
  RawQuery : list (gostring * gostring)
}.

(** [r.URL.Query().Get(key)]: the first value of [key], or the empty
    string. *)
Fixpoint QueryGet (q : list (gostring * gostring)) (key : gostring) : gostring :=
  match q with
  | [] => []
  | (k, v) :: q' => if bool_decide (k = key) then v else QueryGet q' key
  end.

(** [strconv.Atoi]: an optional sign and decimal digits, within the range
    of [int]; the empty string, any other character and a value out of range
    are errors. *)
Fixpoint atoiDigits (acc : Z) (s : gostring) : option Z :=
  match s with
  | [] => Some acc
  | ch :: s' =>
      if (48 <=? ch) && (ch <=? 57) then atoiDigits (acc * 10 + (ch - 48)) s'
      else None
  end.

Definition Atoi (s : gostring) : option Z :=
  let '(neg, digits) :=
    match s with
    | ch :: rest =>
        if ch =? 45 then (true, rest)
        else if ch =? 43 then (false, rest)
        else (false, s)
    | [] => (false, [])
    end in
  match digits with
  | [] => None
  | _ =>
      match atoiDigits 0 digits with
      | None => None
      | Some v =>
          let v := if neg : bool then - v else v in
          if (- 2 ^ 63 <=? v) && (v <=? 2 ^ 63 - 1) then Some v else None
      end
  end.

(** What the outbound fetch delivers: [io.ReadAll(resp.Body)] gives the
    bytes read and the error that ended the reading, if any. *)
Record HttpResponse : Type := {
  ReadAll : gostring * option error
}.

(** The externals of the handler. *)
Class Externals := {
  html_Parse : gostring -> Node + error;
  http_Get : gostring -> HttpResponse + error
}.

(** [Write] on a [strings.Builder] always returns a nil error. *)
Definition builderWrite (body : gostring) : gostring * option error :=
  (body, None).

(** What the handler leaves on the wire. *)
Inductive Payload : Type :=
| Text (msg : gostring)
| Json (r : Response).

Inductive Reply : Type :=
| Responded (status : Z) (body : Payload)
| HandlerPanicked
| HandlerRunning.

Definition StatusOK : Z := 200.
Definition StatusInternalServerError : Z := 500.

(** [http.Error] writes the message followed by a newline. *)
Definition httpError (msg : error) (code : Z) : Reply :=
  Responded code (Text (msg ++ [10])).

(** The resolved [language] of a request. *)
Definition languageOf (r : Request) : gostring :=
  let language := QueryGet (RawQuery r) (lit "language") in
  if bool_decide (language = []) then lit "en" else language.

(** The resolved [countValue] of a request. *)
Definition countValueOf (r : Request) : Z :=
  let count := QueryGet (RawQuery r) (lit "count") in
  let count := if bool_decide (count = []) then lit "10" else count in
  match Atoi count with
  | Some v => v
  | None => 10
  end.

Section Handler.
Context {U : Unicode} {E : Externals}.

Definition pickHandler (fuel : nat) (rng : source) (fl : faults)
    (r : Request) (s : Store) : Reply * Store :=
  let language := languageOf r in
  let countValue := countValueOf r in
  match http_Get (urlFor language) with
  | inr err => (httpError err StatusInternalServerError, s)
  | inl resp =>
      let '(body, _) := ReadAll resp in
      let '(built, err) := builderWrite body in
      match err with
      | Some e => (httpError e StatusInternalServerError, s)
      | None =>
          match ExtractWordsFromParagraphs html_Parse built with
          | inr e => (httpError e StatusInternalServerError, s)
          | inl words =>
              let '(usedBefore, s) := getUsedWords fl language s in
              match usedBefore with
              | inr e => (httpError e StatusInternalServerError, s)
              | inl usedBefore =>
                  match PickRandomUniqueWords fuel rng words countValue usedBefore with
                  | Running => (HandlerRunning, s)
                  | Panicked => (HandlerPanicked, s)
                  | Returned firstNWords =>
                      let '(err, s) := storeUsedWords fl firstNWords language s in
                      match err with
                      | Some e => (httpError e StatusInternalServerError, s)
                      | None =>
                          (Responded StatusOK
                             (Json {| Language := language;
                                      Words := firstNWords |}), s)
                      end
                  end
              end
          end
      end
  end.

End Handler.

(** A request answered with status 500. *)
Definition is500 (rp : Reply) : Prop :=
  exists msg, rp = Responded StatusInternalServerError (Text msg).

(** A fault plan without faults. *)
Definition no_faults : faults := fun _ => None.

(** A freshly created [words.db]. *)
Definition fresh_store : Store :=
  {| used_words := Some []; pending := []; calls := 0 |}.

(** A fetch that delivers the example document; the empty URL cannot be
    fetched. *)
Definition example_response : HttpResponse :=
  {| ReadAll := (lit "<p>Hello, World's Best!</p><table>Ignored</table>", None) |}.

Definition example_world : Externals :=
  {| html_Parse := fun _ => inl example_doc;
     http_Get := fun url =>
       if bool_decide (url = []) then inr (lit "unsupported protocol scheme")
       else inl example_response |}.

(** A fetch whose body breaks off: [io.ReadAll] hands back what it read
    and the error. *)
Definition truncated_response : HttpResponse :=
  {| ReadAll := (lit "<p>Hello, Wor", Some (lit "unexpected EOF")) |}.

Definition truncated_doc : Node :=
  MkNode DocumentNode []
    [MkNode ElementNode (lit "html")
       [MkNode ElementNode (lit "head") [];
        MkNode ElementNode (lit "body")
          [MkNode ElementNode (lit "p")
             [MkNode TextNode (lit "Hello, Wor") []]]]].

Definition truncated_world : Externals :=
  {| html_Parse := fun _ => inl truncated_doc;
     http_Get := fun _ => inl truncated_response |}.

(** A store in which "hello" has been served in "en". *)
Definition served_store : Store :=
  {| used_words := Some [(lit "hello", lit "en")]; pending := []; calls := 0 |}.

(** A store whose table was never created. *)
Definition tableless_store : Store :=
  {| used_words := None; pending := []; calls := 0 |}.

#[local] Set Warnings "-clear-no-such-hyp".

(** * Facts about the selector *)

Lemma contains_elem_of (words : list (list Z)) (word : list Z) :
  contains words word = true <-> word ∈ words.
Proof.
  induction words as [|value rest IH]; simpl.
  - split; [discriminate | intros H; inversion H].
  - destruct (decide (value = word)) as [->|Hne].
    + split; [intros _; left | reflexivity].
    + rewrite IH. split; [intros H; by right|].
      intros H. apply elem_of_cons in H as [H|H]; [congruence | exact H].
Qed.

Lemma contains_false (words : list (list Z)) (word : list Z) :
  contains words word = false <-> word ∉ words.
Proof.
  rewrite <- contains_elem_of. destruct (contains words word); split; congruence.
Qed.

Lemma first_occurrences_elem_of (l : list (list Z)) (w : list Z) :
  w ∈ first_occurrences l <-> w ∈ l.
Proof.
  induction l as [|x l IH]; simpl; [reflexivity|].
  rewrite !elem_of_cons, list_elem_of_filter, IH.
  destruct (decide (w = x)); naive_solver.
Qed.

Lemma first_occurrences_NoDup (l : list (list Z)) : NoDup (first_occurrences l).
Proof.
  induction l as [|x l IH]; simpl; constructor.
  - rewrite list_elem_of_filter. naive_solver.
  - by apply NoDup_filter.
Qed.

Lemma first_occurrences_snoc (l : list (list Z)) (w : list Z) :
  first_occurrences (l ++ [w]) =
  if decide (w ∈ l) then first_occurrences l else first_occurrences l ++ [w].
Proof.
  induction l as [|x l IH]; simpl.
  - destruct (decide (w ∈ [])) as [H|_]; [inversion H | reflexivity].
  - rewrite IH. destruct (decide (w ∈ l)) as [Hin|Hnin].
    + rewrite decide_True by (by right). reflexivity.
    + rewrite filter_app. destruct (decide (w = x)) as [->|Hne].
      * rewrite decide_True by (by left).
        rewrite filter_cons_False by naive_solver.
        rewrite filter_nil. by rewrite app_nil_r.
      * rewrite decide_False.
        2:{ rewrite elem_of_cons. naive_solver. }
        rewrite filter_cons_True by done. by rewrite filter_nil.
Qed.

Lemma accepted_snoc (used : gset (list Z)) (l : list (list Z)) (w : list Z) :
  accepted used (l ++ [w]) =
  if bool_decide (w ∈ used) || contains (accepted used l) w
  then accepted used l else accepted used l ++ [w].
Proof.
  unfold accepted. rewrite filter_app.
  destruct (bool_decide_reflect (w ∈ used)) as [Hu|Hu]; simpl.
  - rewrite filter_cons_False by naive_solver. by rewrite filter_nil, app_nil_r.
  - rewrite filter_cons_True by done. rewrite filter_nil, first_occurrences_snoc.
    destruct (contains _ w) eqn:Hc.
    + rewrite contains_elem_of, first_occurrences_elem_of in Hc.
      by rewrite decide_True.
    + apply contains_false in Hc. rewrite first_occurrences_elem_of in Hc.
      by rewrite decide_False.
Qed.

Lemma drawn_S rng (words : list (list Z)) (k : nat) (w : list Z) :
  words !! Intn rng k (length words) = Some w ->
  drawn rng words (S k) = drawn rng words k ++ [w].
Proof.
  intros Hw. unfold drawn. rewrite seq_S, omap_app. simpl. by rewrite Hw.
Qed.

Lemma drawn_elem_of rng (words : list (list Z)) (k : nat) (w : list Z) :
  w ∈ drawn rng words k -> w ∈ words.
Proof.
  unfold drawn. rewrite list_elem_of_omap. intros (i & _ & Hi).
  by eapply list_elem_of_lookup_2.
Qed.

Lemma accepted_elem_of used (l : list (list Z)) (w : list Z) :
  w ∈ accepted used l <-> w ∈ l /\ w ∉ used.
Proof.
  unfold accepted. rewrite first_occurrences_elem_of, list_elem_of_filter. tauto.
Qed.

(** The loop keeps its slice equal to what the draws made so far accept. *)
Lemma pick_loop_returned fuel rng words n used : forall i acc out,
  acc = accepted used (drawn rng words i) ->
  pick_loop fuel rng i words n used acc = Returned out ->
  exists k, (i < k <= i + fuel)%nat /\ out = accepted used (drawn rng words k)
            /\ Z.of_nat (length out) = n.
Proof.
  induction fuel as [|fuel IH]; intros i acc out Hacc; simpl; [discriminate|].
  destruct (words !! Intn rng i (length words)) as [word|] eqn:Hw; [|discriminate].
  pose proof (accepted_snoc used (drawn rng words i) word) as Hs.
  rewrite <- (drawn_S _ _ _ _ Hw), <- Hacc in Hs.
  destruct (bool_decide (word ∈ used) || contains acc word).
  - intros H. apply IH in H as (k & Hk & Ho); [|done].
    exists k. split; [lia | done].
  - destruct (Z.eqb_spec (Z.of_nat (length (acc ++ [word]))) n) as [Hn|Hn].
    + intros [= <-]. exists (S i). split; [lia|]. by split.
    + intros H. apply IH in H as (k & Hk & Ho); [|done].
      exists k. split; [lia | done].
Qed.

(** What a call with [n < len(pool)] returns, when it returns. *)
Lemma PickRandomUniqueWords_returned (fuel : nat) (rng : source)
    (words : list (list Z)) (n : Z) (usedBefore : gset (list Z))
    (out : list (list Z)) :
  n < Z.of_nat (length words) ->
  PickRandomUniqueWords fuel rng words n usedBefore = Returned out ->
  (forall w, w ∈ out -> w ∉ usedBefore)
  /\ NoDup out
  /\ Z.of_nat (length out) = n
  /\ (forall w, w ∈ out -> w ∈ words)
  /\ exists k, (k <= fuel)%nat /\ out = accepted usedBefore (drawn rng words k).
Proof.
  intros Hn. unfold PickRandomUniqueWords.
  destruct (Z.geb_spec n (Z.of_nat (length words))) as [?|_]; [lia|].
  destruct (n <? 0); [discriminate|].
  intros H. apply pick_loop_returned in H as (k & Hk & -> & Hlen); [|done].
  repeat split.
  - intros w Hw. by apply accepted_elem_of in Hw as [_ ?].
  - apply first_occurrences_NoDup.
  - exact Hlen.
  - intros w Hw. apply accepted_elem_of in Hw as [Hw _].
    by apply drawn_elem_of in Hw.
  - exists k. split; [lia | done].
Qed.

(** C2. With [n >= len(pool)] the pool itself is returned, whatever it
    holds and whatever is excluded. *)
Theorem PickRandomUniqueWords_whole_pool (fuel : nat) (rng : source)
    (words : list (list Z)) (n : Z) (usedBefore : gset (list Z)) :
  n >= Z.of_nat (length words) ->
  PickRandomUniqueWords fuel rng words n usedBefore = Returned words.
Proof.
  intros Hn. unfold PickRandomUniqueWords.
  destruct (Z.geb_spec n (Z.of_nat (length words))) as [_|?]; [reflexivity | lia].
Qed.

Lemma PickRandomUniqueWords_whole_pool_witness :
  PickRandomUniqueWords 0 (fun _ => O) [lit "a"; lit "b"; lit "a"] 3
    {[ lit "a" ]} = Returned [lit "a"; lit "b"; lit "a"].
Proof.
  apply PickRandomUniqueWords_whole_pool. simpl; lia.
Defined.

(** ** Termination of the selection loop *)

Lemma Intn_lt rng i k : (0 < k)%nat -> (Intn rng i k < k)%nat.
Proof. intros Hk. unfold Intn. apply Nat.mod_upper_bound. lia. Qed.

Lemma draw_is_Some rng i (words : list (list Z)) :
  (0 < length words)%nat ->
  exists w, words !! Intn rng i (length words) = Some w.
Proof.
  intros Hlen. apply lookup_lt_is_Some_2. by apply Intn_lt.
Qed.

(** A result, once reached, is not changed by more fuel. *)
Lemma pick_loop_more_fuel fuel rng words n used : forall i acc extra,
  pick_loop fuel rng i words n used acc <> Running ->
  pick_loop (fuel + extra) rng i words n used acc
  = pick_loop fuel rng i words n used acc.
Proof.
  induction fuel as [|fuel IH]; intros i acc extra; simpl; [congruence|].
  destruct (words !! Intn rng i (length words)); [|reflexivity].
  destruct (bool_decide _ || contains acc l); [apply IH|].
  destruct (_ =? n); [reflexivity | apply IH].
Qed.

(** Among more distinct words than the slice holds there is one the slice
    does not hold. *)
Lemma fresh_word (l acc : list (list Z)) :
  NoDup l -> (length acc < length l)%nat -> exists w, w ∈ l /\ w ∉ acc.
Proof.
  intros Hnd Hlen.
  destruct (decide (Forall (fun w => w ∈ acc) l)) as [Hall|Hex].
  - rewrite Forall_forall in Hall.
    assert (l ⊆+ acc) as Hsub by (by apply NoDup_submseteq).
    apply submseteq_length in Hsub. lia.
  - apply not_Forall_Exists in Hex; [|apply _].
    apply Exists_exists in Hex as (w & Hw & Hn). by exists w.
Qed.

Section Termination.
Variables (rng : source) (words : list (list Z)) (n : Z)
          (used : gset (list Z)).
Hypothesis Hfair : fair rng (length words).
Hypothesis Hpool : (0 < length words)%nat.

Lemma slice_ok_snoc acc w :
  slice_ok words used acc -> w ∈ words -> w ∉ used -> w ∉ acc ->
  slice_ok words used (acc ++ [w]).
Proof.
  intros [Hnd Hsub] Hw Hu Ha. split.
  - apply NoDup_app. repeat split; [done| |apply NoDup_singleton].
    intros x Hx Hx'. apply list_elem_of_singleton in Hx'. by subst.
  - intros x Hx. apply elem_of_app in Hx as [Hx|Hx]; [by apply Hsub|].
    apply list_elem_of_singleton in Hx as ->. unfold eligible.
    rewrite elem_of_remove_dups, list_elem_of_filter. done.
Qed.

Lemma slice_ok_length acc :
  slice_ok words used acc -> (length acc <= length (eligible words used))%nat.
Proof.
  intros [Hnd Hsub]. apply submseteq_length. by apply NoDup_submseteq.
Qed.

(** A draw of an eligible word the slice does not hold is accepted. *)
Lemma pick_loop_accepts (acc : list (list Z)) i w :
  slice_ok words used acc -> goes_on rng words n used acc ->
  words !! Intn rng i (length words) = Some w -> w ∉ used -> w ∉ acc ->
  exists fuel out, pick_loop fuel rng i words n used acc = Returned out.
Proof.
  intros Hok Hnext Hw Hu Ha.
  assert (Hrej : bool_decide (w ∈ used) || contains acc w = false).
  { rewrite bool_decide_eq_false_2 by done. by apply contains_false. }
  destruct (decide (Z.of_nat (length (acc ++ [w])) = n)) as [He|Hne].
  - exists 1%nat, (acc ++ [w]). simpl. rewrite Hw, Hrej.
    by rewrite (proj2 (Z.eqb_eq _ _) He).
  - destruct (Hnext (S i) (acc ++ [w])) as (fuel & out & Hrun).
    + apply slice_ok_snoc; [done| |done|done].
      by eapply list_elem_of_lookup_2.
    + rewrite length_app. simpl. lia.
    + exact Hne.
    + exists (S fuel), out. simpl. rewrite Hw, Hrej.
      by rewrite (proj2 (Z.eqb_neq _ _) Hne).
Qed.

(** From a draw that will be accepted [d] draws ahead, the loop reaches an
    accepting draw. *)
Lemma pick_loop_reaches (acc : list (list Z)) :
  slice_ok words used acc -> goes_on rng words n used acc ->
  forall d i w,
    words !! Intn rng (i + d) (length words) = Some w ->
    w ∉ used -> w ∉ acc ->
    exists fuel out, pick_loop fuel rng i words n used acc = Returned out.
Proof.
  intros Hok Hnext. induction d as [|d IH]; intros i w Hw Hu Ha.
  - rewrite Nat.add_0_r in Hw. by eapply pick_loop_accepts.
  - destruct (draw_is_Some rng i words Hpool) as [w0 Hw0].
    destruct (bool_decide (w0 ∈ used) || contains acc w0) eqn:Hrej.
    + destruct (IH (S i) w) as (fuel & out & Hrun); [|done|done|].
      { by replace (S i + d)%nat with (i + S d)%nat by lia. }
      exists (S fuel), out. simpl. by rewrite Hw0, Hrej.
    + apply orb_false_iff in Hrej as [Hu0 Ha0].
      apply bool_decide_eq_false in Hu0. apply contains_false in Ha0.
      by eapply pick_loop_accepts.
Qed.

(** With enough eligible words, the loop returns from every slice it can
    have built. *)
Lemma pick_loop_returns :
  n <= Z.of_nat (length (eligible words used)) ->
  forall m acc i, slice_ok words used acc -> Z.of_nat (length acc) < n ->
    (Z.to_nat n - length acc <= m)%nat ->
    exists fuel out, pick_loop fuel rng i words n used acc = Returned out.
Proof.
  intros Hen. induction m as [|m IH]; intros acc i Hok Hlt Hm; [lia|].
  destruct (fresh_word (eligible words used) acc) as (w & Hw & Ha).
  { apply NoDup_remove_dups. }
  { lia. }
  unfold eligible in Hw.
  rewrite elem_of_remove_dups, list_elem_of_filter in Hw. destruct Hw as [Hu Hw].
  apply list_elem_of_lookup_1 in Hw as [idx Hidx].
  destruct (Hfair i idx) as (j & Hj & Hdraw).
  { by eapply lookup_lt_Some. }
  apply (pick_loop_reaches acc Hok) with (d := (j - i)%nat) (w := w); [|
    replace (i + (j - i))%nat with j by lia; by rewrite Hdraw | done | done].
  intros i' acc' Hok' Hlen' Hne'. apply IH; [done | lia | lia].
Qed.

End Termination.

(** For a count between 1 and the number of eligible words, the call
    returns on every fair sequence of draws. *)
Theorem PickRandomUniqueWords_returns (rng : source) (words : list (list Z))
    (n : Z) (usedBefore : gset (list Z)) :
  fair rng (length words) ->
  1 <= n < Z.of_nat (length words) ->
  n <= Z.of_nat (length (eligible words usedBefore)) ->
  exists fuel out,
    PickRandomUniqueWords fuel rng words n usedBefore = Returned out.
Proof.
  intros Hfair Hn Hen.
  destruct (pick_loop_returns rng words n usedBefore Hfair ltac:(lia) Hen
              (Z.to_nat n) [] O) as (fuel & out & Hrun).
  - split; [constructor | intros w Hw; inversion Hw].
  - simpl. lia.
  - lia.
  - exists fuel, out. unfold PickRandomUniqueWords.
    destruct (Z.geb_spec n (Z.of_nat (length words))); [lia|].
    destruct (Z.ltb_spec n 0); [lia | exact Hrun].
Qed.

(** The loop neither returns nor panics while the count cannot be met. *)
Lemma pick_loop_starved (rng : source) (words : list (list Z)) (n : Z)
    (used : gset (list Z)) :
  (0 < length words)%nat ->
  (forall acc w, slice_ok words used acc -> w ∈ words -> w ∉ used -> w ∉ acc ->
     Z.of_nat (length (acc ++ [w])) <> n) ->
  forall fuel i acc, slice_ok words used acc ->
    pick_loop fuel rng i words n used acc = Running.
Proof.
  intros Hpool Hnever. induction fuel as [|fuel IH]; intros i acc Hok; simpl; [done|].
  destruct (draw_is_Some rng i words Hpool) as [w Hw]. rewrite Hw.
  destruct (bool_decide (w ∈ used) || contains acc w) eqn:Hrej; [by apply IH|].
  apply orb_false_iff in Hrej as [Hu Ha].
  apply bool_decide_eq_false in Hu. apply contains_false in Ha.
  assert (Hin : w ∈ words) by (by eapply list_elem_of_lookup_2).
  rewrite (proj2 (Z.eqb_neq _ _) (Hnever acc w Hok Hin Hu Ha)).
  apply IH. by apply slice_ok_snoc.
Qed.

(** X1. With fewer eligible words than asked for, no sequence of draws
    makes the call return. *)
Theorem PickRandomUniqueWords_starved (rng : source) (words : list (list Z))
    (n : Z) (usedBefore : gset (list Z)) :
  0 <= n < Z.of_nat (length words) ->
  Z.of_nat (length (eligible words usedBefore)) < n ->
  never_returns rng words n usedBefore.
Proof.
  intros Hn Hen fuel. unfold PickRandomUniqueWords.
  destruct (Z.geb_spec n (Z.of_nat (length words))); [lia|].
  destruct (Z.ltb_spec n 0); [lia|].
  apply pick_loop_starved; [lia| |split; [constructor | intros w Hw; inversion Hw]].
  intros acc w Hok Hw Hu Ha.
  pose proof (slice_ok_length words usedBefore _
                (slice_ok_snoc words usedBefore acc w Hok Hw Hu Ha)). lia.
Qed.

(** With a count of zero the test [len(randomWords) == n] is never met. *)
Lemma PickRandomUniqueWords_zero (rng : source) (words : list (list Z))
    (usedBefore : gset (list Z)) :
  words <> [] -> never_returns rng words 0 usedBefore.
Proof.
  intros Hne fuel. unfold PickRandomUniqueWords.
  assert (0 < length words)%nat by (destruct words; [done | simpl; lia]).
  destruct (Z.geb_spec 0 (Z.of_nat (length words))); [lia|].
  simpl. apply pick_loop_starved; [done| |split; [constructor | intros w Hw; inversion Hw]].
  intros acc w _ _ _ _. rewrite length_app. simpl. lia.
Qed.

(** The source that draws the indices round and round is fair. *)
Lemma fair_round_robin (len : nat) : fair (fun i => i) len.
Proof.
  intros i idx Hidx. exists (i * len + idx)%nat. split; [nia|].
  unfold Intn. rewrite Nat.add_comm, Nat.Div0.mod_add. by apply Nat.mod_small.
Qed.

(** C1. Whenever a call with [n < len(pool)] returns, the words returned
    are not excluded, pairwise distinct, exactly [n] in number, taken from
    the pool, and stand in the order in which the draws accepted them; and
    for [n] from 1 up to the number of eligible words the call does return
    on every fair sequence of draws. *)
Theorem PickRandomUniqueWords_selection (rng : source)
    (words : list (list Z)) (n : Z) (usedBefore : gset (list Z)) :
  n < Z.of_nat (length words) ->
  (forall fuel out,
     PickRandomUniqueWords fuel rng words n usedBefore = Returned out ->
     (forall w, w ∈ out -> w ∉ usedBefore)
     /\ NoDup out
     /\ Z.of_nat (length out) = n
     /\ (forall w, w ∈ out -> w ∈ words)
     /\ exists k, (k <= fuel)%nat
                  /\ out = accepted usedBefore (drawn rng words k))
  /\ (fair rng (length words) ->
      1 <= n <= Z.of_nat (length (eligible words usedBefore)) ->
      exists fuel out,
        PickRandomUniqueWords fuel rng words n usedBefore = Returned out).
Proof.
  intros Hn. split.
  - intros fuel out. by apply PickRandomUniqueWords_returned.
  - intros Hfair Hel. apply PickRandomUniqueWords_returns; [done | lia | lia].
Qed.

Lemma PickRandomUniqueWords_selection_witness :
  PickRandomUniqueWords 4 (fun i => i) [lit "a"; lit "b"; lit "a"; lit "c"] 2
    {[ lit "b" ]} = Returned [lit "a"; lit "c"]
  /\ NoDup [lit "a"; lit "c"]
  /\ exists fuel out,
       PickRandomUniqueWords fuel (fun i => i)
         [lit "a"; lit "b"; lit "a"; lit "c"] 2 {[ lit "b" ]} = Returned out.
Proof.
  assert (H : PickRandomUniqueWords 4 (fun i => i)
                [lit "a"; lit "b"; lit "a"; lit "c"] 2 {[ lit "b" ]}
              = Returned [lit "a"; lit "c"]) by (vm_compute; reflexivity).
  destruct (PickRandomUniqueWords_selection (fun i => i)
              [lit "a"; lit "b"; lit "a"; lit "c"] 2 {[ lit "b" ]})
    as [Hsel Hret]; [simpl; lia|].
  split; [exact H|]. split.
  - exact (proj1 (proj2 (Hsel _ _ H))).
  - apply Hret; [apply fair_round_robin|]. vm_compute. split; discriminate.
Defined.

(** * Facts about the extractor *)

(** Induction over a tree, the children of a node taken together. *)
Lemma Node_forall_ind (P : Node -> Prop) :
  (forall t d cs, Forall P cs -> P (MkNode t d cs)) -> forall n, P n.
Proof.
  intros Hstep. fix IH 1. intros [t d cs]. apply Hstep.
  induction cs as [|c cs IHcs]; constructor; [apply IH | exact IHcs].
Qed.

Lemma fold_left_builder {A} (f : A -> list Z) (cs : list A) (b : list Z) :
  fold_left (fun builder c => builder ++ f c) cs b = b ++ concat (map f cs).
Proof.
  revert b. induction cs as [|c cs IH]; intros b; simpl.
  - by rewrite app_nil_r.
  - by rewrite IH, app_assoc.
Qed.

Lemma concat_flat_map {A B} (f : A -> list (list B)) (l : list A) :
  concat (flat_map f l) = concat (map (fun a => concat (f a)) l).
Proof.
  induction l as [|a l IH]; simpl; [done|]. by rewrite concat_app, IH.
Qed.

(** [getText] is the text nodes below the node, in document order, put
    together. *)
Lemma getText_textNodes (n : Node) : getText n = concat (textNodes n).
Proof.
  induction n as [t d cs IH] using Node_forall_ind. simpl.
  rewrite fold_left_builder, concat_app, concat_flat_map.
  f_equal.
  - destruct (isTextNode t); simpl; [by rewrite app_nil_r | done].
  - f_equal. by apply map_ext_Forall.
Qed.

Section ExtractorFacts.
Context {U : Unicode}.

(** *** [RemovePunctuation] *)

Lemma RemovePunctuation_loop (L : UnicodeLaws U) (s builder : list Z) :
  fold_left
    (fun builder r =>
       if IsLetter r || IsSpace r || (r =? apostrophe)
       then builder ++ [ToLower r]
       else builder)
    s builder
  = builder ++ normalize s.
Proof.
  revert builder. induction s as [|r s IH]; intros builder; simpl.
  - by rewrite app_nil_r.
  - rewrite IH. unfold normalize.
    fold (retained r). destruct (retained r) eqn:Hr.
    + rewrite filter_cons_True by done. rewrite fmap_cons, <- app_assoc. simpl.
      do 2 f_equal. unfold lowerLetter, retained in *.
      destruct (IsLetter r); [done|]. simpl in Hr.
      destruct (IsSpace r) eqn:Hs; simpl in Hr.
      * by apply ToLower_IsSpace.
      * apply Z.eqb_eq in Hr as ->. by apply ToLower_apostrophe.
    + rewrite filter_cons_False; [done|]. by rewrite Hr.
Qed.

Lemma RemovePunctuation_normalize (L : UnicodeLaws U) (s : list Z) :
  RemovePunctuation s = normalize s.
Proof. unfold RemovePunctuation. by rewrite RemovePunctuation_loop. Qed.

(** *** [strings.Fields] *)

Lemma pieces_spaceless_app (cur t : list Z) :
  spaceless cur ->
  exists p ps, pieces t = p :: ps /\ pieces (cur ++ t) = (cur ++ p) :: ps.
Proof.
  intros Hc. induction Hc as [|r cur Hr Hc IH]; simpl.
  - destruct t as [|r t]; simpl; [by eexists _, _|].
    destruct (IsSpace r); [by eexists _, _|].
    destruct (pieces t); by eexists _, _.
  - destruct IH as (p & ps & Ht & Happ). exists p, ps.
    by rewrite Hr, Happ.
Qed.

Lemma tokens_nil : tokens [] = [].
Proof. unfold tokens. simpl. by rewrite filter_cons_False by naive_solver. Qed.

Lemma tokens_space (r : Z) (s : list Z) :
  IsSpace r = true -> tokens (r :: s) = tokens s.
Proof.
  intros Hr. unfold tokens. simpl. rewrite Hr.
  by rewrite filter_cons_False by naive_solver.
Qed.

Lemma tokens_spaceless (cur : list Z) :
  cur <> [] -> spaceless cur -> tokens cur = [cur].
Proof.
  intros Hne Hc. destruct (pieces_spaceless_app cur [] Hc) as (p & ps & Ht & Happ).
  simpl in Ht. injection Ht as <- <-. rewrite !app_nil_r in Happ.
  unfold tokens. rewrite Happ. by rewrite filter_cons_True.
Qed.

Lemma tokens_spaceless_space (cur : list Z) (r : Z) (s : list Z) :
  cur <> [] -> spaceless cur -> IsSpace r = true ->
  tokens (cur ++ r :: s) = cur :: tokens s.
Proof.
  intros Hne Hc Hr.
  destruct (pieces_spaceless_app cur (r :: s) Hc) as (p & ps & Ht & Happ).
  simpl in Ht. rewrite Hr in Ht. injection Ht as <- <-.
  rewrite app_nil_r in Happ. unfold tokens. rewrite Happ.
  by rewrite filter_cons_True.
Qed.

Lemma slice_prefix (pre s : list Z) (st : nat) :
  (st <= length pre)%nat ->
  slice (pre ++ s) (st, length pre) = drop st pre.
Proof.
  intros Hst. unfold slice. simpl.
  rewrite drop_app_le by done.
  rewrite take_app_le by (rewrite length_drop; lia).
  apply take_ge. rewrite length_drop. lia.
Qed.

Lemma fieldsSpans_tokens (s : list Z) : forall pre start spans full,
  full = pre ++ s ->
  start_ok pre start ->
  slice full <$> fieldsSpans s (length pre) start spans
  = (slice full <$> spans) ++ tokens (reading pre start ++ s).
Proof.
  induction s as [|r s IH]; intros pre start spans full -> Hok; simpl.
  - rewrite !app_nil_r. destruct start as [st|]; simpl.
    + destruct Hok as [Hst Hsp]. rewrite fmap_app. simpl. f_equal.
      rewrite tokens_spaceless; [|intros Hd; apply (f_equal length) in Hd;
        rewrite length_drop in Hd; simpl in Hd; lia|done].
      f_equal. rewrite <- (app_nil_r pre) at 1. apply slice_prefix. lia.
    + by rewrite tokens_nil, app_nil_r.
  - assert (Hfull : pre ++ r :: s = (pre ++ [r]) ++ s) by (by rewrite <- app_assoc).
    assert (Hlen : S (length pre) = length (pre ++ [r]))
      by (rewrite length_app; simpl; lia).
    rewrite Hlen.
    destruct (IsSpace r) eqn:Hr.
    + destruct start as [st|]; simpl.
      * destruct Hok as [Hst Hsp].
        rewrite (IH (pre ++ [r]) None _ (pre ++ r :: s) Hfull I). simpl.
        rewrite fmap_app, <- app_assoc. simpl. f_equal.
        rewrite tokens_spaceless_space; [|intros Hd; apply (f_equal length) in Hd;
          rewrite length_drop in Hd; simpl in Hd; lia|done|done].
        f_equal. apply slice_prefix. lia.
      * rewrite (IH (pre ++ [r]) None _ (pre ++ r :: s) Hfull I). simpl.
        by rewrite tokens_space.
    + destruct start as [st|]; simpl.
      * destruct Hok as [Hst Hsp].
        rewrite (IH (pre ++ [r]) (Some st) _ (pre ++ r :: s) Hfull).
        -- simpl. rewrite drop_app_le by lia. by rewrite <- app_assoc.
        -- simpl. split; [rewrite length_app; simpl; lia|].
           rewrite drop_app_le by lia. apply Forall_app. split; [done|].
           by constructor.
      * rewrite (IH (pre ++ [r]) (Some (length pre)) _ (pre ++ r :: s) Hfull).
        -- simpl. rewrite drop_app_length. done.
        -- simpl. split; [rewrite length_app; simpl; lia|].
           rewrite drop_app_length. by constructor.
Qed.

Lemma Fields_tokens (s : list Z) : Fields s = tokens s.
Proof.
  unfold Fields.
  exact (fieldsSpans_tokens s [] None [] s eq_refl I).
Qed.

(** *** [traverse] *)

Lemma fold_left_traverse (f : Node -> list (list Z)) (cs : list Node) :
  Forall (fun c => forall ws, traverse c ws = ws ++ f c) cs ->
  forall ws, fold_left (fun words c => traverse c words) cs ws
             = ws ++ flat_map f cs.
Proof.
  induction 1 as [|c cs Hc _ IH]; intros ws; simpl.
  - by rewrite app_nil_r.
  - by rewrite Hc, IH, app_assoc.
Qed.

Lemma flat_map_flat_map {A B C} (f : A -> list B) (g : B -> list C) (l : list A) :
  flat_map g (flat_map f l) = flat_map (fun a => flat_map g (f a)) l.
Proof.
  induction l as [|a l IH]; simpl; [done|]. by rewrite flat_map_app, IH.
Qed.

(** What the closure adds for a node: one run of tokens for every [<p>]
    element below it. *)
Lemma traverse_perParagraph (L : UnicodeLaws U) (n : Node) :
  forall ws, traverse n ws = ws ++ perParagraph n.
Proof.
  induction n as [t d cs IH] using Node_forall_ind. intros ws.
  cbn [traverse].
  rewrite (fold_left_traverse perParagraph cs IH).
  unfold perParagraph at 2. cbn [paragraphs].
  rewrite flat_map_app, flat_map_flat_map.
  change (fun a => flat_map _ (paragraphs a)) with perParagraph.
  destruct (isElementNode t && bool_decide (d = lit "p")).
  - cbn [flat_map]. rewrite app_nil_r, <- app_assoc. do 2 f_equal.
    unfold paragraphTokens.
    by rewrite RemovePunctuation_normalize, Fields_tokens, getText_textNodes.
  - reflexivity.
Qed.

(** *** Text outside paragraphs *)

Lemma paragraphs_rewriteOutside (f : list Z -> list Z) (n : Node) :
  paragraphs (rewriteOutside f n) = paragraphs n.
Proof.
  induction n as [t d cs IH] using Node_forall_ind.
  cbn [rewriteOutside].
  destruct (isElementNode t && bool_decide (d = lit "p")) eqn:Hp; [done|].
  cbn [paragraphs].
  assert (Hp' : isElementNode t
                && bool_decide ((if isTextNode t then f d else d) = lit "p")
                = false).
  { destruct t; simpl in *; done. }
  rewrite Hp, Hp'. f_equal.
  induction IH as [|c cs Hc _ IHcs]; simpl; [done|]. by rewrite Hc, IHcs.
Qed.

Lemma perParagraph_rewriteOutside (f : list Z -> list Z) (n : Node) :
  perParagraph (rewriteOutside f n) = perParagraph n.
Proof. unfold perParagraph. by rewrite paragraphs_rewriteOutside. Qed.

(** *** Paragraphs inside paragraphs *)

Lemma paragraphs_none (n : Node) : hasParagraph n = false -> paragraphs n = [].
Proof.
  induction n as [t d cs IH] using Node_forall_ind. cbn [hasParagraph paragraphs].
  intros H. apply orb_false_iff in H as [-> Hcs]. simpl.
  induction IH as [|c cs Hc _ IHcs]; [done|]. simpl in *.
  apply orb_false_iff in Hcs as [Hc' Hcs]. by rewrite Hc, IHcs.
Qed.

(** Where no [<p>] lies inside another, every [<p>] is an outer one. *)
Lemma paragraphs_outer (n : Node) :
  nestedParagraph n = false -> paragraphs n = outerParagraphs n.
Proof.
  induction n as [t d cs IH] using Node_forall_ind.
  cbn [nestedParagraph paragraphs outerParagraphs].
  intros H. apply orb_false_iff in H as [Hin Hcs].
  destruct (isElementNode t && bool_decide (d = lit "p")); simpl in *.
  - f_equal. clear IH Hcs.
    induction cs as [|c cs IHcs]; [done|]. simpl in *.
    apply orb_false_iff in Hin as [Hc Hin].
    by rewrite (paragraphs_none c Hc), IHcs.
  - clear Hin. induction IH as [|c cs Hc _ IHcs]; [done|]. simpl in *.
    apply orb_false_iff in Hcs as [Hc' Hcs]. by rewrite Hc, IHcs.
Qed.

Lemma perParagraph_extractSpec (n : Node) :
  nestedParagraph n = false -> perParagraph n = extractSpec n.
Proof.
  intros H. unfold perParagraph, extractSpec. by rewrite paragraphs_outer.
Qed.

End ExtractorFacts.

Lemma ascii_unicode_laws : UnicodeLaws ascii_unicode.
Proof.
  split.
  - intros r. simpl. unfold ascii_IsSpace, ascii_ToLower. intros H.
    destruct (Z.leb_spec 65 r), (Z.leb_spec r 90); simpl; try done.
    apply orb_true_iff in H as [H|H]; [|apply Z.eqb_eq in H; lia].
    apply andb_true_iff in H as [_ H]. apply Z.leb_le in H. lia.
  - reflexivity.
Qed.

(** The strings of the text nodes are joined as bytes before they are read:
    a sequence split between two nodes is read as the rune it encodes. *)
Example traverse_split_sequence :
  traverse (U := latin1_unicode) split_sequence_doc []
  = [lit "caf" ++ [233]; lit "ok"].
Proof. vm_compute. reflexivity. Qed.

(** C5, as stated, fails on a document with a [<p>] inside a [<p>]: the
    text of the inner element is returned a second time, after the text that
    follows it. *)
Lemma ExtractWordsFromParagraphs_nested_twice :
  nestedParagraph nested_doc = true
  /\ ExtractWordsFromParagraphs (U := ascii_unicode)
       (fun _ => inl nested_doc) []
     = inl [lit "outer"; lit "inner"; lit "one"; lit "tail";
            lit "inner"; lit "one"]
  /\ extractSpec (U := ascii_unicode) nested_doc
     = [lit "outer"; lit "inner"; lit "one"; lit "tail"]
  /\ ExtractWordsFromParagraphs (U := ascii_unicode)
       (fun _ => inl nested_doc) []
     <> inl (extractSpec (U := ascii_unicode) nested_doc).
Proof.
  split; [reflexivity|]. split; [vm_compute; reflexivity|].
  split; [vm_compute; reflexivity|]. vm_compute. discriminate.
Qed.

(** C5, amended. On a document that parses and in which no [<p>] element
    lies inside another, [ExtractWordsFromParagraphs] returns exactly the
    tokens of the text inside the [<p>] elements, in depth-first document
    order: the bytes of the text nodes joined and read as runes, letters,
    white space and apostrophes kept, everything else dropped without a
    separator, letters lowercased, split on runs of white space with no
    empty token; and text outside the [<p>] elements can be changed at will
    without changing the result. *)
Theorem ExtractWordsFromParagraphs_tokens {U : Unicode} (L : UnicodeLaws U)
    (Parse : list Z -> Node + list Z) (htmlContent : list Z) (doc : Node) :
  Parse htmlContent = inl doc ->
  nestedParagraph doc = false ->
  ExtractWordsFromParagraphs Parse htmlContent = inl (extractSpec doc)
  /\ forall f, traverse (rewriteOutside f doc) [] = traverse doc [].
Proof.
  intros HP Hflat. unfold ExtractWordsFromParagraphs. rewrite HP. split.
  - rewrite traverse_perParagraph by done. by rewrite perParagraph_extractSpec.
  - intros f. rewrite !traverse_perParagraph by done.
    by rewrite perParagraph_rewriteOutside.
Qed.

Lemma ExtractWordsFromParagraphs_tokens_witness :
  ExtractWordsFromParagraphs (U := ascii_unicode) (fun _ => inl example_doc) []
  = inl [lit "hello"; lit "world's"; lit "best"].
Proof.
  refine (eq_trans
    (proj1 (ExtractWordsFromParagraphs_tokens (U := ascii_unicode)
              ascii_unicode_laws (fun _ => inl example_doc) [] example_doc
              eq_refl eq_refl)) _).
  vm_compute. reflexivity.
Defined.

(** * Facts about the store *)

(** [initDB] creates the table when it is missing and leaves an existing
    one, rows included, as it is; when it fails the table is as before. *)
Lemma initDB_table (fl : faults) (s : Store) :
  match (initDB fl s).1 with
  | None => used_words (initDB fl s).2 = Some (default [] (used_words s))
  | Some _ => used_words (initDB fl s).2 = used_words s
  end.
Proof.
  unfold initDB, Open, createTable. destruct (fl (calls s)); [done|]. simpl.
  by destruct (fl (S (calls s))).
Qed.


Lemma insertAll_elem_of (words : list (list Z)) (language : list Z) :
  forall (rows : list (list Z * list Z)) r,
  r ∈ insertAll rows words language
  <-> r ∈ rows \/ exists w, w ∈ words /\ r = (w, language).
Proof.
  induction words as [|w words IH]; intros rows r; simpl.
  - split; [by left|]. intros [H|(w & Hw & _)]; [done | inversion Hw].
  - fold (insertAll (if bool_decide ((w, language) ∈ rows) then rows
                     else rows ++ [(w, language)]) words language).
    rewrite IH. destruct (bool_decide_reflect ((w, language) ∈ rows)) as [Hin|Hnin].
    + split.
      * intros [H|(w' & Hw' & ->)]; [by left|]. right. exists w'. split; [by right|done].
      * intros [H|(w' & Hw' & ->)]; [by left|].
        apply elem_of_cons in Hw' as [->|Hw']; [by left|].
        right. by exists w'.
    + rewrite elem_of_app, list_elem_of_singleton. split.
      * intros [[H| ->]|(w' & Hw' & ->)]; [by left| |].
        -- right. exists w. split; [by left|done].
        -- right. exists w'. split; [by right|done].
      * intros [H|(w' & Hw' & ->)]; [by left; left|].
        apply elem_of_cons in Hw' as [->|Hw']; [by left; right|].
        right. by exists w'.
Qed.

Lemma insertAll_NoDup (words : list (list Z)) (language : list Z) :
  forall rows : list (list Z * list Z),
  NoDup rows -> NoDup (insertAll rows words language).
Proof.
  induction words as [|w words IH]; intros rows Hnd; simpl; [done|].
  apply IH. destruct (bool_decide_reflect ((w, language) ∈ rows)); [done|].
  apply NoDup_app. repeat split; [done| |apply NoDup_singleton].
  intros x Hx Hx'. apply list_elem_of_singleton in Hx'. by subst.
Qed.

Lemma insertAll_present (words : list (list Z)) (language : list Z) :
  forall rows : list (list Z * list Z),
  (forall w, w ∈ words -> (w, language) ∈ rows) ->
  insertAll rows words language = rows.
Proof.
  induction words as [|w words IH]; intros rows Hin; simpl; [done|].
  rewrite bool_decide_eq_true_2 by (apply Hin; by left).
  apply IH. intros w' Hw'. apply Hin. by right.
Qed.

(** The loop of [storeUsedWords]. *)
Lemma storeLoop_outcome fl (words : list (list Z)) (language : list Z) :
  forall (s : Store) err s',
  storeLoop fl words language s = (err, s') ->
  (calls s <= calls s')%nat /\
  match err with
  | Some _ => used_words s' = used_words s
  | None =>
      forall rows, used_words s = Some rows ->
        used_words s' = Some (insertAll (rows ++ pending s) words language)
  end.
Proof.
  induction words as [|w words IH]; intros s err s'; simpl.
  - unfold Commit. destruct (fl (calls s)); intros [= <- <-]; simpl;
      (split; [lia|]); [done|].
    intros rows ->. done.
  - unfold Exec. destruct (fl (calls s)) eqn:Hf.
    { intros [= <- <-]. simpl. split; [lia | done]. }
    destruct (used_words s) as [rows|] eqn:Hrows.
    2:{ intros [= <- <-]. simpl. split; [lia | done]. }
    destruct (bool_decide_reflect ((w, language) ∈ rows ++ pending s)) as [Hin|Hnin].
    + intros H. apply IH in H as [Hc H]. simpl in *. split; [lia|].
      destruct err; [by rewrite H | ].
      intros rows' [= <-]. rewrite (H rows Hrows). simpl.
      by rewrite bool_decide_eq_true_2.
    + intros H. apply IH in H as [Hc H]. simpl in *. split; [lia|].
      destruct err; [by rewrite H | ].
      intros rows' [= <-]. rewrite (H rows eq_refl). simpl.
      rewrite bool_decide_eq_false_2 by done. by rewrite app_assoc.
Qed.

Lemma storeUsedWords_outcome fl (words : list (list Z)) (language : list Z)
    (s : Store) err s' :
  storeUsedWords fl words language s = (err, s') ->
  (calls s <= calls s')%nat /\
  match err with
  | Some _ => used_words s' = used_words s
  | None =>
      forall rows, used_words s = Some rows ->
        used_words s' = Some (insertAll rows words language)
  end.
Proof.
  unfold storeUsedWords, Begin, Prepare.
  destruct (fl (calls s)) eqn:Hb.
  { intros [= <- <-]. simpl. split; [lia | done]. }
  simpl. destruct (fl (S (calls s))) eqn:Hp.
  { intros [= <- <-]. simpl. split; [lia | done]. }
  destruct (used_words s) as [rows0|] eqn:Hrows0.
  2:{ intros [= <- <-]. simpl. split; [lia | done]. }
  intros H. apply storeLoop_outcome in H as [Hc H]. simpl in *. split; [lia|].
  destruct err; [congruence|]. intros rows [= <-].
  rewrite (H rows0 eq_refl). by rewrite app_nil_r.
Qed.

(** Without faults the batch is committed. *)
Lemma storeLoop_quiet fl (words : list (list Z)) (language : list Z) :
  forall s : Store, quiet_from fl (calls s) -> used_words s <> None ->
  exists s', storeLoop fl words language s = (None, s').
Proof.
  induction words as [|w words IH]; intros s Hq Ht; simpl.
  - unfold Commit. rewrite Hq by lia. by eexists.
  - unfold Exec. rewrite Hq by lia.
    destruct (used_words s) as [rows|] eqn:Hrows; [|done].
    destruct (bool_decide _).
    + apply IH; simpl; [|congruence]. intros j Hj. apply Hq. lia.
    + apply IH; simpl; [|congruence]. intros j Hj. apply Hq. lia.
Qed.

Lemma storeUsedWords_quiet fl (words : list (list Z)) (language : list Z)
    (s : Store) :
  quiet_from fl (calls s) -> used_words s <> None ->
  exists s', storeUsedWords fl words language s = (None, s').
Proof.
  intros Hq Ht. unfold storeUsedWords, Begin, Prepare.
  rewrite Hq by lia. simpl. rewrite Hq by lia.
  destruct (used_words s) as [rows|] eqn:Hrows; [|done].
  apply storeLoop_quiet; simpl; [|congruence]. intros j Hj. apply Hq. lia.
Qed.

Lemma quiet_from_le fl (k k' : nat) :
  (k <= k')%nat -> quiet_from fl k -> quiet_from fl k'.
Proof. intros Hk Hq j Hj. apply Hq. lia. Qed.

(** Reading without faults. *)
Lemma scanRows_quiet fl (rows : list (list Z)) :
  forall (used : gset (list Z)) (s : Store), quiet_from fl (calls s) ->
  (scanRows fl rows used s).1 = inl (list_to_set rows ∪ used).
Proof.
  induction rows as [|w rows IH]; intros used s Hq; simpl.
  - f_equal. set_solver.
  - repeat (rewrite Hq by (simpl; lia); simpl).
    rewrite IH by (intros j Hj; apply Hq; simpl in *; lia).
    f_equal. set_solver.
Qed.

Lemma getUsedWords_quiet fl (language : list Z) (s : Store) :
  used_words s <> None -> quiet_from fl (calls s) ->
  (getUsedWords fl language s).1 = inl (recorded language s).
Proof.
  intros Ht Hq. unfold getUsedWords, Query. rewrite Hq by lia.
  destruct (used_words s) as [rows|] eqn:Hrows; [|done].
  rewrite scanRows_quiet by (intros j Hj; apply Hq; simpl in *; lia).
  unfold recorded. rewrite Hrows. simpl. f_equal. set_solver.
Qed.

(** A failure of [rows.Next] in the middle of the rows ends the loop like
    the end of the rows does: the words scanned so far are returned with a
    nil error. *)
Lemma getUsedWords_broken_iteration :
  (getUsedWords second_insert_fails (lit "en")
     {| used_words := Some [(lit "a", lit "en"); (lit "b", lit "en")];
        pending := []; calls := 0 |}).1
  = inl {[ lit "a" ]}.
Proof. vm_compute. reflexivity. Qed.

Lemma recorded_insertAll (rows : list (list Z * list Z)) (ws : list (list Z))
    (language : list Z) (s s' : Store) :
  used_words s = Some rows ->
  used_words s' = Some (insertAll rows ws language) ->
  recorded language s' = recorded language s ∪ list_to_set ws.
Proof.
  intros Hs Hs'. unfold recorded. rewrite Hs, Hs'. simpl.
  apply set_eq. intros w.
  rewrite elem_of_union, !elem_of_list_to_set, !list_elem_of_fmap.
  split.
  - intros ([w' l] & -> & Hr). apply list_elem_of_filter in Hr as [Hl Hr].
    simpl in *. subst l. apply insertAll_elem_of in Hr as [Hr|(w0 & Hw0 & [= ->])].
    + left. exists (w', language). split; [done|]. by apply list_elem_of_filter.
    + by right.
  - intros [([w' l] & -> & Hr)|Hw].
    + apply list_elem_of_filter in Hr as [Hl Hr]. exists (w', l). split; [done|].
      apply list_elem_of_filter. split; [done|]. apply insertAll_elem_of. by left.
    + exists (w, language). split; [done|]. apply list_elem_of_filter.
      split; [done|]. apply insertAll_elem_of. right. by exists w.
Qed.

(** C6. After a successful [storeUsedWords(ws, lang)], a read that meets no
    fault returns exactly the words recorded for [lang] before together with
    the words of [ws]; and for a language without recorded words it returns
    the empty set and no error. *)
Theorem getUsedWords_after_store (fl : faults) (ws : list (list Z))
    (lang : list Z) (s s' : Store) :
  used_words s <> None ->
  storeUsedWords fl ws lang s = (None, s') ->
  quiet_from fl (calls s') ->
  (getUsedWords fl lang s').1 = inl (recorded lang s ∪ list_to_set ws)
  /\ forall lang0, recorded lang0 s' = ∅ ->
       (getUsedWords fl lang0 s').1 = inl ∅.
Proof.
  intros Ht Hst Hq. apply storeUsedWords_outcome in Hst as [Hc Hst].
  destruct (used_words s) as [rows|] eqn:Hrows; [|done].
  specialize (Hst rows eq_refl).
  assert (Ht' : used_words s' <> None) by (by rewrite Hst).
  split.
  - rewrite getUsedWords_quiet by done. f_equal.
    by apply (recorded_insertAll rows).
  - intros lang0 H0. rewrite getUsedWords_quiet by done. by rewrite H0.
Qed.

Lemma getUsedWords_after_store_witness :
  (getUsedWords no_faults (lit "en")
     (storeUsedWords no_faults [lit "a"; lit "b"] (lit "en") fresh_store).2).1
  = inl (recorded (lit "en") fresh_store ∪ list_to_set [lit "a"; lit "b"])
  /\ (getUsedWords no_faults (lit "fr")
        (storeUsedWords no_faults [lit "a"; lit "b"] (lit "en") fresh_store).2).1
     = inl ∅.
Proof.
  destruct (getUsedWords_after_store no_faults [lit "a"; lit "b"] (lit "en")
              fresh_store
              (storeUsedWords no_faults [lit "a"; lit "b"] (lit "en") fresh_store).2)
    as [H1 H2].
  - discriminate.
  - vm_compute. reflexivity.
  - intros j _. reflexivity.
  - split; [exact H1|]. apply H2. vm_compute. reflexivity.
Defined.

Lemma filter_eq_absent (l : list (list Z * list Z)) (x : list Z * list Z) :
  x ∉ l -> filter (fun r => r = x) l = [].
Proof.
  induction l as [|y l IH]; intros Hx; [done|].
  apply not_elem_of_cons in Hx as [Hne Hx].
  rewrite filter_cons_False by congruence. by apply IH.
Qed.

Lemma filter_eq_NoDup (l : list (list Z * list Z)) (x : list Z * list Z) :
  NoDup l -> x ∈ l -> length (filter (fun r => r = x) l) = 1%nat.
Proof.
  induction 1 as [|y l Hy Hnd IH]; intros Hx; [inversion Hx|].
  destruct (decide (y = x)) as [->|Hne].
  - rewrite filter_cons_True by done. by rewrite filter_eq_absent.
  - rewrite filter_cons_False by done. apply IH.
    apply elem_of_cons in Hx as [->|Hx]; done.
Qed.

Lemma storeUsedWords_keeps_NoDup fl (words : list (list Z)) (language : list Z)
    (s : Store) (rows : list (list Z * list Z)) :
  used_words s = Some rows -> NoDup rows ->
  exists rows', used_words (storeUsedWords fl words language s).2 = Some rows'
                /\ NoDup rows'.
Proof.
  intros Hrows Hnd.
  destruct (storeUsedWords fl words language s) as [err s'] eqn:Hst.
  apply storeUsedWords_outcome in Hst as [_ Hst]. simpl.
  destruct err.
  - exists rows. by rewrite Hst.
  - eexists. split; [by apply Hst|]. by apply insertAll_NoDup.
Qed.

Lemma storeAll_keeps_NoDup fl (batches : list (list (list Z) * list Z)) :
  forall (s : Store) (rows : list (list Z * list Z)),
  used_words s = Some rows -> NoDup rows ->
  exists rows', used_words (storeAll fl batches s) = Some rows' /\ NoDup rows'.
Proof.
  induction batches as [|[words language] batches IH]; intros s rows Hrows Hnd.
  - by exists rows.
  - simpl.
    destruct (storeUsedWords_keeps_NoDup fl words language s rows Hrows Hnd)
      as (rows1 & Hrows1 & Hnd1).
    by apply (IH _ rows1).
Qed.

(** C7. Whatever calls of [storeUsedWords] are made, with or without
    faults, no (word, language) pair comes to stand twice in [used_words];
    and storing a word a second time is not an error and changes nothing, so
    that two calls with the same word leave exactly one record of it. *)
Theorem used_words_unique (fl : faults)
    (batches : list (list (list Z) * list Z)) (s : Store)
    (rows : list (list Z * list Z)) :
  used_words s = Some rows -> NoDup rows ->
  (exists rows', used_words (storeAll fl batches s) = Some rows' /\ NoDup rows')
  /\ forall w lang, quiet_from fl (calls s) ->
       exists s1 s2 rows2,
         storeUsedWords fl [w] lang s = (None, s1)
         /\ storeUsedWords fl [w] lang s1 = (None, s2)
         /\ used_words s2 = used_words s1
         /\ used_words s2 = Some rows2
         /\ length (filter (fun r => r = (w, lang)) rows2) = 1%nat.
Proof.
  intros Hrows Hnd. split; [by apply (storeAll_keeps_NoDup fl batches s rows)|].
  intros w lang Hq.
  destruct (storeUsedWords_quiet fl [w] lang s Hq) as [s1 H1]; [congruence|].
  pose proof (storeUsedWords_outcome _ _ _ _ _ _ H1) as [Hc1 Ho1].
  specialize (Ho1 rows Hrows).
  destruct (storeUsedWords_quiet fl [w] lang s1) as [s2 H2];
    [by eapply quiet_from_le | congruence |].
  pose proof (storeUsedWords_outcome _ _ _ _ _ _ H2) as [Hc2 Ho2].
  specialize (Ho2 _ Ho1).
  assert (Hin : (w, lang) ∈ insertAll rows [w] lang).
  { apply insertAll_elem_of. right. exists w. split; [by left | done]. }
  rewrite insertAll_present in Ho2.
  2:{ intros w' Hw'. apply list_elem_of_singleton in Hw' as ->. exact Hin. }
  exists s1, s2, (insertAll rows [w] lang). repeat split; try done.
  - congruence.
  - apply filter_eq_NoDup; [by apply insertAll_NoDup | exact Hin].
Qed.

Lemma used_words_unique_witness :
  (exists rows',
      used_words (storeAll no_faults
                    [([lit "a"], lit "en"); ([lit "a"], lit "en")] fresh_store)
      = Some rows' /\ NoDup rows')
  /\ exists s1 s2 rows2,
       storeUsedWords no_faults [lit "a"] (lit "en") fresh_store = (None, s1)
       /\ storeUsedWords no_faults [lit "a"] (lit "en") s1 = (None, s2)
       /\ used_words s2 = used_words s1
       /\ used_words s2 = Some rows2
       /\ length (filter (fun r => r = (lit "a", lit "en")) rows2) = 1%nat.
Proof.
  destruct (used_words_unique no_faults
              [([lit "a"], lit "en"); ([lit "a"], lit "en")] fresh_store []
              eq_refl (NoDup_nil_2 (A := _))) as [H1 H2].
  split; [exact H1|]. apply H2. intros j _. reflexivity.
Defined.

(** A failing [stmt.Exec] ends the loop with its error. *)
Lemma storeLoop_exec_fault fl (words : list (list Z)) (language : list Z) :
  forall (s : Store) (c : nat) (e : list Z),
  (calls s <= c < calls s + length words)%nat ->
  used_words s <> None ->
  (forall m, (calls s <= m < c)%nat -> fl m = None) ->
  fl c = Some e ->
  (storeLoop fl words language s).1 = Some e.
Proof.
  induction words as [|w words IH]; intros s c e Hc Ht Hq He; simpl in *; [lia|].
  unfold Exec. destruct (decide (c = calls s)) as [->|Hne].
  - by rewrite He.
  - rewrite Hq by lia.
    destruct (used_words s) as [rows|] eqn:Hrows; [|done].
    assert (Hstep : forall s1 : Store,
              calls s1 = S (calls s) -> used_words s1 = Some rows ->
              (storeLoop fl words language s1).1 = Some e).
    { intros s1 Hc1 Hr. apply (IH s1 c); [lia | congruence | | done].
      intros m Hm. apply Hq. lia. }
    destruct (bool_decide _); by apply Hstep.
Qed.

Lemma storeUsedWords_exec_fault fl (words : list (list Z)) (language : list Z)
    (s : Store) (k : nat) (e : list Z) :
  (k < length words)%nat ->
  used_words s <> None ->
  (forall j, (j < 2 + k)%nat -> fl (calls s + j)%nat = None) ->
  fl (calls s + (2 + k))%nat = Some e ->
  (storeUsedWords fl words language s).1 = Some e.
Proof.
  intros Hk Ht Hq He.
  assert (Hq' : forall m, (calls s <= m < calls s + (2 + k))%nat -> fl m = None).
  { intros m Hm. replace m with (calls s + (m - calls s))%nat by lia.
    apply Hq. lia. }
  unfold storeUsedWords, Begin, Prepare.
  rewrite (Hq' (calls s)) by lia. simpl. rewrite (Hq' (S (calls s))) by lia.
  destruct (used_words s) as [rows|] eqn:Hrows; [|done].
  apply (storeLoop_exec_fault fl words language _ (calls s + (2 + k))%nat e);
    simpl; [lia | congruence | | done].
  intros m Hm. apply Hq'. lia.
Qed.

(** C8. A call that returns an error leaves the table as it was, whichever
    step failed; a call that returns no error leaves every word of the batch
    in the table; and when the insertion of one of the words is the first
    call to fail, its error is what the call returns. *)
Theorem storeUsedWords_atomic (fl : faults) (words : list (list Z))
    (language : list Z) (s : Store) (err : option (list Z)) (s' : Store) :
  storeUsedWords fl words language s = (err, s') ->
  match err with
  | Some _ => used_words s' = used_words s
  | None =>
      forall w, w ∈ words ->
        exists rows', used_words s' = Some rows' /\ (w, language) ∈ rows'
  end
  /\ forall k e,
       (k < length words)%nat -> used_words s <> None ->
       (forall j, (j < 2 + k)%nat -> fl (calls s + j)%nat = None) ->
       fl (calls s + (2 + k))%nat = Some e ->
       err = Some e.
Proof.
  intros Hst. split.
  2:{ intros k e Hk Ht Hq He.
      pose proof (storeUsedWords_exec_fault fl words language s k e Hk Ht Hq He)
        as H. by rewrite Hst in H. }
  pose proof (storeUsedWords_outcome _ _ _ _ _ _ Hst) as [_ Ho].
  destruct err; [done|]. intros w Hw.
  assert (Ht : used_words s <> None).
  { revert Hst. unfold storeUsedWords, Begin, Prepare.
    destruct (fl (calls s)); [discriminate|]. simpl.
    destruct (fl (S (calls s))); [discriminate|].
    destruct (used_words s); [done | discriminate]. }
  destruct (used_words s) as [rows|] eqn:Hrows; [|done].
  eexists. split; [by apply Ho|]. apply insertAll_elem_of. right. by exists w.
Qed.

Lemma storeUsedWords_atomic_witness :
  (storeUsedWords second_insert_fails [lit "a"; lit "b"] (lit "en") fresh_store).1
    = Some (lit "disk I/O error")
  /\ used_words
       (storeUsedWords second_insert_fails [lit "a"; lit "b"] (lit "en") fresh_store).2
     = used_words fresh_store.
Proof.
  pose proof (storeUsedWords_atomic second_insert_fails [lit "a"; lit "b"]
                (lit "en") fresh_store _ _ (surjective_pairing _)) as [H1 H2].
  assert (He : (storeUsedWords second_insert_fails [lit "a"; lit "b"] (lit "en")
                  fresh_store).1 = Some (lit "disk I/O error")).
  { apply (H2 1%nat); [simpl; lia | discriminate | | reflexivity].
    intros j Hj. destruct j as [|[|[|j]]]; [reflexivity..|simpl in Hj; lia]. }
  split; [exact He|]. rewrite He in H1. exact H1.
Defined.

(** * Facts about the handler *)

Section HandlerFacts.
Context {U : Unicode} {E : Externals}.

(** The handler from the selection on, once the fetch, the extraction and
    the read of the store have gone through. *)
Lemma pickHandler_selection (fuel : nat) (rng : source) (fl : faults)
    (r : Request) (s s1 : Store) (resp : HttpResponse)
    (words : list (list Z)) (usedBefore : gset (list Z)) :
  http_Get (urlFor (languageOf r)) = inl resp ->
  ExtractWordsFromParagraphs html_Parse (ReadAll resp).1 = inl words ->
  getUsedWords fl (languageOf r) s = (inl usedBefore, s1) ->
  (pickHandler fuel rng fl r s).1 =
  match PickRandomUniqueWords fuel rng words (countValueOf r) usedBefore with
  | Running => HandlerRunning
  | Panicked => HandlerPanicked
  | Returned firstNWords =>
      match (storeUsedWords fl firstNWords (languageOf r) s1).1 with
      | Some e => httpError e StatusInternalServerError
      | None =>
          Responded StatusOK
            (Json {| Language := languageOf r; Words := firstNWords |})
      end
  end.
Proof.
  intros Hget Hext Hused. unfold pickHandler. rewrite Hget.
  destruct (ReadAll resp) as [body rerr]. simpl in *. rewrite Hext, Hused.
  destruct (PickRandomUniqueWords _ _ _ _ _); try reflexivity.
  destruct (storeUsedWords _ _ _ _) as [[e|] s2]; reflexivity.
Qed.

Lemma pickHandler_fetch_error (fuel : nat) (rng : source) (fl : faults)
    (r : Request) (s : Store) (e : list Z) :
  http_Get (urlFor (languageOf r)) = inr e ->
  pickHandler fuel rng fl r s = (httpError e StatusInternalServerError, s).
Proof. intros Hget. unfold pickHandler. by rewrite Hget. Qed.

Lemma pickHandler_parse_error (fuel : nat) (rng : source) (fl : faults)
    (r : Request) (s : Store) (resp : HttpResponse) (e : list Z) :
  http_Get (urlFor (languageOf r)) = inl resp ->
  html_Parse (ReadAll resp).1 = inr e ->
  is500 (pickHandler fuel rng fl r s).1.
Proof.
  intros Hget Hp. unfold pickHandler. rewrite Hget.
  destruct (ReadAll resp) as [body rerr]. simpl in *.
  unfold ExtractWordsFromParagraphs. rewrite Hp. by eexists.
Qed.

Lemma pickHandler_read_store_error (fuel : nat) (rng : source) (fl : faults)
    (r : Request) (s s1 : Store) (resp : HttpResponse)
    (words : list (list Z)) (e : list Z) :
  http_Get (urlFor (languageOf r)) = inl resp ->
  ExtractWordsFromParagraphs html_Parse (ReadAll resp).1 = inl words ->
  getUsedWords fl (languageOf r) s = (inr e, s1) ->
  is500 (pickHandler fuel rng fl r s).1.
Proof.
  intros Hget Hext Hused. unfold pickHandler. rewrite Hget.
  destruct (ReadAll resp) as [body rerr]. simpl in *. rewrite Hext, Hused.
  by eexists.
Qed.

Lemma pickHandler_write_store_error (fuel : nat) (rng : source) (fl : faults)
    (r : Request) (s s1 : Store) (resp : HttpResponse)
    (words firstNWords : list (list Z)) (usedBefore : gset (list Z))
    (e : list Z) :
  http_Get (urlFor (languageOf r)) = inl resp ->
  ExtractWordsFromParagraphs html_Parse (ReadAll resp).1 = inl words ->
  getUsedWords fl (languageOf r) s = (inl usedBefore, s1) ->
  PickRandomUniqueWords fuel rng words (countValueOf r) usedBefore
    = Returned firstNWords ->
  (storeUsedWords fl firstNWords (languageOf r) s1).1 = Some e ->
  is500 (pickHandler fuel rng fl r s).1.
Proof.
  intros Hget Hext Hused Hpick Hst.
  rewrite (pickHandler_selection _ _ _ _ _ _ _ _ _ Hget Hext Hused).
  rewrite Hpick, Hst. by eexists.
Qed.

Lemma QueryGet_absent (q : list (list Z * list Z)) (key : list Z) :
  key ∉ q.*1 -> QueryGet q key = [].
Proof.
  induction q as [|[k v] q IH]; simpl; [done|]. intros Hk.
  apply not_elem_of_cons in Hk as [Hne Hk].
  rewrite bool_decide_eq_false_2 by congruence. by apply IH.
Qed.

(** C10. A request without [language] is served in "en"; a request without
    [count], or with one [strconv.Atoi] rejects, asks for 10 words; a
    language outside the table is looked up all the same, gives the empty
    URL, and the error of fetching it comes back with status 500. *)
Theorem parameter_resolution (r : Request) :
  (lit "language" ∉ (RawQuery r).*1 -> languageOf r = lit "en")
  /\ (lit "count" ∉ (RawQuery r).*1 -> countValueOf r = 10)
  /\ (Atoi (QueryGet (RawQuery r) (lit "count")) = None -> countValueOf r = 10)
  /\ (forall e fuel rng fl s,
        randomArticleURLByLanguage !! languageOf r = None ->
        http_Get [] = inr e ->
        urlFor (languageOf r) = []
        /\ pickHandler fuel rng fl r s
           = (Responded StatusInternalServerError (Text (e ++ [10])), s)).
Proof.
  repeat split.
  - intros H. unfold languageOf. by rewrite QueryGet_absent.
  - intros H. unfold countValueOf. by rewrite QueryGet_absent.
  - intros H. unfold countValueOf.
    destruct (bool_decide _); [reflexivity | by rewrite H].
  - unfold urlFor. by rewrite H.
  - apply pickHandler_fetch_error. unfold urlFor. by rewrite H.
Qed.

End HandlerFacts.

Lemma parameter_resolution_witness :
  languageOf {| RawQuery := [(lit "count", lit "1e3")] |} = lit "en"
  /\ countValueOf {| RawQuery := [(lit "language", lit "xx")] |} = 10
  /\ countValueOf {| RawQuery := [(lit "count", lit "1e3")] |} = 10
  /\ pickHandler (U := ascii_unicode) (E := example_world) 0 (fun _ => O)
       no_faults
       {| RawQuery := [(lit "language", lit "xx"); (lit "count", lit "1e3")] |}
       fresh_store
     = (Responded StatusInternalServerError
          (Text (lit "unsupported protocol scheme" ++ [10])), fresh_store).
Proof.
  assert (Hkey : forall k v : list Z, k <> lit "language" ->
            lit "language" ∉ [(k, v)].*1).
  { intros k v Hk H. apply list_elem_of_singleton in H. by apply Hk. }
  assert (Hkey' : forall k v : list Z, k <> lit "count" ->
            lit "count" ∉ [(k, v)].*1).
  { intros k v Hk H. apply list_elem_of_singleton in H. by apply Hk. }
  split; [|split; [|split]].
  - apply (proj1 (parameter_resolution (U := ascii_unicode) (E := example_world)
                    {| RawQuery := [(lit "count", lit "1e3")] |})).
    by apply Hkey.
  - apply (proj1 (proj2 (parameter_resolution (U := ascii_unicode)
                           (E := example_world)
                           {| RawQuery := [(lit "language", lit "xx")] |}))).
    by apply Hkey'.
  - apply (proj1 (proj2 (proj2 (parameter_resolution (U := ascii_unicode)
                                  (E := example_world)
                                  {| RawQuery := [(lit "count", lit "1e3")] |})))).
    vm_compute. reflexivity.
  - apply (proj2 (proj2 (proj2 (parameter_resolution (U := ascii_unicode)
                                  (E := example_world)
                                  {| RawQuery := [(lit "language", lit "xx");
                                                  (lit "count", lit "1e3")] |})))).
    + vm_compute. reflexivity.
    + reflexivity.
Defined.

(** C3, at the count 0: the pool ["a"] has one eligible word, which is not
    fewer than 0, and yet no sequence of draws makes the call return. *)
Theorem PickRandomUniqueWords_zero_of_one :
  0 < Z.of_nat (length [lit "a"])
  /\ 0 <= Z.of_nat (length (eligible [lit "a"] ∅))
  /\ forall rng, never_returns rng [lit "a"] 0 ∅.
Proof.
  split; [simpl; lia|]. split; [lia|].
  intros rng. by apply PickRandomUniqueWords_zero.
Qed.

(** C4, as the code has it: with a count of 0 and a pool that is not empty the
    call never returns, whatever is drawn; with a negative count it panics
    before the loop is entered; and a request with [count=0] brings the
    handler there. *)
Theorem PickRandomUniqueWords_count_zero (rng : source)
    (words : list (list Z)) (usedBefore : gset (list Z)) :
  words <> [] ->
  never_returns rng words 0 usedBefore
  /\ (forall n fuel, n < 0 ->
        PickRandomUniqueWords fuel rng words n usedBefore = Panicked)
  /\ countValueOf {| RawQuery := [(lit "count", lit "0")] |} = 0
  /\ forall fuel,
       (pickHandler (U := ascii_unicode) (E := example_world) fuel rng no_faults
          {| RawQuery := [(lit "count", lit "0")] |} fresh_store).1
       = HandlerRunning.
Proof.
  intros Hne. split; [by apply PickRandomUniqueWords_zero|].
  split; [|split; [reflexivity|]].
  - intros n fuel Hn. unfold PickRandomUniqueWords.
    destruct (Z.geb_spec n (Z.of_nat (length words))); [lia|].
    by destruct (Z.ltb_spec n 0); [|lia].
  - intros fuel.
    erewrite (pickHandler_selection (U := ascii_unicode) (E := example_world));
      [| vm_compute; reflexivity | vm_compute; reflexivity
       | vm_compute; reflexivity].
    change (countValueOf _) with 0.
    by rewrite PickRandomUniqueWords_zero.
Qed.

Lemma PickRandomUniqueWords_count_zero_witness :
  never_returns (fun i => i) [lit "a"; lit "b"] 0 {[ lit "b" ]}.
Proof.
  apply (PickRandomUniqueWords_count_zero (fun i => i) [lit "a"; lit "b"]
           {[ lit "b" ]}).
  discriminate.
Defined.

(** C4, as stated, fails for a negative count: the call ends in a panic. *)
Lemma PickRandomUniqueWords_negative_count_panics :
  [lit "a"] <> [] /\ -1 <= 0
  /\ ~ never_returns (fun _ => O) [lit "a"] (-1) ∅.
Proof.
  split; [discriminate|]. split; [lia|].
  intros H. specialize (H O). discriminate H.
Qed.

(** C9, on a body that breaks off: the error of [io.ReadAll] is overwritten
    by the result of writing to the builder before it is looked at; the
    handler goes on with the bytes read so far and answers 200. *)
Theorem pickHandler_read_error_unseen :
  (ReadAll truncated_response).2 = Some (lit "unexpected EOF")
  /\ forall fuel rng,
       (pickHandler (U := ascii_unicode) (E := truncated_world) fuel rng
          no_faults {| RawQuery := [] |} fresh_store).1
       = Responded StatusOK
           (Json {| Language := lit "en"; Words := [lit "hello"; lit "wor"] |}).
Proof.
  split; [reflexivity|]. intros fuel rng. vm_compute. reflexivity.
Qed.

(** * More about the selector *)

Lemma PickRandomUniqueWords_starved_witness :
  never_returns (fun i => i) [lit "a"; lit "b"; lit "a"] 2 {[ lit "b" ]}.
Proof.
  apply PickRandomUniqueWords_starved; [simpl; lia|].
  vm_compute. reflexivity.
Defined.

(** The loop always indexes the pool within its bounds. *)
Lemma pick_loop_in_bounds (rng : source) (words : list (list Z)) (n : Z)
    (used : gset (list Z)) :
  (0 < length words)%nat ->
  forall fuel i acc, pick_loop fuel rng i words n used acc <> Panicked.
Proof.
  intros Hpool. induction fuel as [|fuel IH]; intros i acc; simpl; [done|].
  destruct (draw_is_Some rng i words Hpool) as [w ->].
  destruct (bool_decide _ || contains acc w); [apply IH|].
  destruct (_ =? n); [done | apply IH].
Qed.

(** X2. A call with a count that is not negative never panics: the
    allocation has a valid capacity, [rand.Intn] is never called with 0 and
    the index it gives is always inside the pool. *)
Theorem PickRandomUniqueWords_no_panic (fuel : nat) (rng : source)
    (words : list (list Z)) (n : Z) (usedBefore : gset (list Z)) :
  0 <= n ->
  PickRandomUniqueWords fuel rng words n usedBefore <> Panicked.
Proof.
  intros Hn. unfold PickRandomUniqueWords.
  destruct (Z.geb_spec n (Z.of_nat (length words))); [done|].
  destruct (Z.ltb_spec n 0); [lia|].
  apply pick_loop_in_bounds. lia.
Qed.

Lemma PickRandomUniqueWords_no_panic_witness :
  PickRandomUniqueWords 2 (fun i => i) [lit "a"; lit "b"; lit "a"] 2
    {[ lit "b" ]} <> Panicked.
Proof. apply PickRandomUniqueWords_no_panic. lia. Defined.

(** X3. A call that asks for exactly as many words as are eligible, and
    returns, returns all of them: its result is a rearrangement of the
    distinct pool words that are not excluded. *)
Theorem PickRandomUniqueWords_exhausts (fuel : nat) (rng : source)
    (words : list (list Z)) (n : Z) (usedBefore : gset (list Z))
    (out : list (list Z)) :
  n < Z.of_nat (length words) ->
  n = Z.of_nat (length (eligible words usedBefore)) ->
  PickRandomUniqueWords fuel rng words n usedBefore = Returned out ->
  out ≡ₚ eligible words usedBefore.
Proof.
  intros Hn Hel Hrun.
  destruct (PickRandomUniqueWords_returned _ _ _ _ _ _ Hn Hrun)
    as (Hu & Hnd & Hlen & Hin & _).
  apply submseteq_length_Permutation; [|lia].
  apply NoDup_submseteq; [done|]. intros w Hw. unfold eligible.
  rewrite elem_of_remove_dups, list_elem_of_filter. split; [by apply Hu | by apply Hin].
Qed.

Lemma PickRandomUniqueWords_exhausts_witness :
  [lit "a"; lit "c"] ≡ₚ eligible [lit "a"; lit "b"; lit "a"; lit "c"] {[ lit "b" ]}.
Proof.
  apply (PickRandomUniqueWords_exhausts 4 (fun i => i)
           [lit "a"; lit "b"; lit "a"; lit "c"] 2 {[ lit "b" ]}).
  - simpl; lia.
  - vm_compute. reflexivity.
  - vm_compute. reflexivity.
Defined.

(** * More about the extractor *)

Section ExtractorMore.
Context {U : Unicode}.

(** [RemovePunctuation] as a filter followed by a map; nothing about the
    tables of [unicode] is used. *)
Lemma RemovePunctuation_loop_filter (s builder : list Z) :
  fold_left
    (fun builder r =>
       if IsLetter r || IsSpace r || (r =? apostrophe)
       then builder ++ [ToLower r]
       else builder)
    s builder
  = builder ++ (ToLower <$> filter (fun r => retained r = true) s).
Proof.
  revert builder. induction s as [|r s IH]; intros builder; simpl.
  - by rewrite app_nil_r.
  - rewrite IH. fold (retained r). destruct (retained r) eqn:Hr.
    + rewrite filter_cons_True by done. by rewrite fmap_cons, <- app_assoc.
    + rewrite filter_cons_False; [done|]. by rewrite Hr.
Qed.

Lemma RemovePunctuation_filter (s : list Z) :
  RemovePunctuation s = ToLower <$> filter (fun r => retained r = true) s.
Proof. unfold RemovePunctuation. by rewrite RemovePunctuation_loop_filter. Qed.

(** Reading never yields more runes than there are bytes. *)
Lemma runes_length : forall s : list Z, (length (runes s) <= length s)%nat.
Proof.
  fix IH 1. intros [|b0 s1]; [done|]. cbn [runes].
  pose proof (IH s1) as H1.
  destruct (b0 <? 128); [simpl; lia|].
  destruct ((192 <=? b0) && (b0 <? 224)).
  { destruct s1 as [|b1 s2]; [simpl; lia|]. pose proof (IH s2) as H2.
    destruct (_ && _); simpl in *; lia. }
  destruct ((224 <=? b0) && (b0 <? 240)).
  { destruct s1 as [|b1 [|b2 s3]]; [simpl in *; lia..|]. pose proof (IH s3) as H3.
    destruct (_ && _); simpl in *; lia. }
  destruct ((240 <=? b0) && (b0 <? 248)); [|simpl; lia].
  destruct s1 as [|b1 [|b2 [|b3 s4]]]; [simpl in *; lia..|].
  pose proof (IH s4) as H4. destruct (_ && _); simpl in *; lia.
Qed.

(** After a string that is valid UTF-8 the reading of what follows starts
    afresh. *)
Lemma runes_app : forall a b : list Z,
  validUTF8 a = true -> runes (a ++ b) = runes a ++ runes b.
Proof.
  fix IH 1. intros [|b0 s1] b; [done|]. cbn [validUTF8 runes app].
  destruct (b0 <? 128).
  { intros H. cbn [app]. f_equal. by apply IH. }
  destruct ((192 <=? b0) && (b0 <? 224)).
  { destruct s1 as [|b1 s2]; [done|]. cbn [app].
    destruct (_ && _); [|done]. intros H. cbn [app]. f_equal. by apply IH. }
  destruct ((224 <=? b0) && (b0 <? 240)).
  { destruct s1 as [|b1 [|b2 s3]]; [done..|]. cbn [app].
    destruct (_ && _); [|done]. intros H. cbn [app]. f_equal. by apply IH. }
  destruct ((240 <=? b0) && (b0 <? 248)); [|done].
  destruct s1 as [|b1 [|b2 [|b3 s4]]]; [done..|]. cbn [app].
  destruct (_ && _); [|done]. intros H. cbn [app]. f_equal. by apply IH.
Qed.

(** X5. When [a] is valid UTF-8, [RemovePunctuation] of [a] joined with [b]
    is [RemovePunctuation] of [a] followed by [RemovePunctuation] of [b]; and
    the result never has more runes than the input has bytes. *)
Theorem RemovePunctuation_app (a b : list Z) :
  validUTF8 a = true ->
  RemovePunctuation (runes (a ++ b))
  = RemovePunctuation (runes a) ++ RemovePunctuation (runes b)
  /\ (length (RemovePunctuation (runes a)) <= length a)%nat.
Proof.
  intros Ha. rewrite !RemovePunctuation_filter. split.
  - by rewrite runes_app, filter_app, fmap_app.
  - rewrite length_fmap. etransitivity; [apply length_filter|].
    apply runes_length.
Qed.

(** X6. When lowercasing keeps letters letters and changes nothing the
    second time, cleaning a text that is already clean changes nothing. *)
Theorem RemovePunctuation_idempotent (L : UnicodeLaws U) (s : list Z) :
  (forall r, IsLetter r = true -> IsLetter (ToLower r) = true) ->
  (forall r, ToLower (ToLower r) = ToLower r) ->
  RemovePunctuation (RemovePunctuation s) = RemovePunctuation s.
Proof.
  intros Hletter Hidem. rewrite !RemovePunctuation_filter.
  induction s as [|r s IH]; [done|].
  destruct (retained r) eqn:Hr.
  - rewrite (filter_cons_True _ r) by done. rewrite fmap_cons.
    assert (Hr' : retained (ToLower r) = true).
    { unfold retained in *. destruct (IsLetter r) eqn:Hl.
      - by rewrite Hletter.
      - simpl in Hr. destruct (IsSpace r) eqn:Hs.
        + rewrite (ToLower_IsSpace U L r Hs), Hs. by rewrite orb_true_r.
        + simpl in Hr. apply Z.eqb_eq in Hr as ->.
          rewrite (ToLower_apostrophe U L). by rewrite orb_true_r. }
    rewrite filter_cons_True by done. rewrite fmap_cons, Hidem. by f_equal.
  - rewrite (filter_cons_False _ r); [done|]. by rewrite Hr.
Qed.

(** The pieces of a text hold no white space and only runes of the text. *)
Lemma pieces_runes (s : list Z) :
  forall p, p ∈ pieces s ->
    forall c, c ∈ p -> IsSpace c = false /\ c ∈ s.
Proof.
  induction s as [|r s IH]; simpl; intros p Hp c Hc.
  - apply list_elem_of_singleton in Hp as ->. inversion Hc.
  - destruct (IsSpace r) eqn:Hr.
    + apply elem_of_cons in Hp as [->|Hp]; [inversion Hc|].
      destruct (IH p Hp c Hc). split; [done | by right].
    + destruct (pieces s) as [|p0 ps] eqn:Hps.
      * apply list_elem_of_singleton in Hp as ->.
        apply list_elem_of_singleton in Hc as ->. split; [done | by left].
      * apply elem_of_cons in Hp as [->|Hp].
        -- apply elem_of_cons in Hc as [->|Hc]; [split; [done | by left]|].
           destruct (IH p0 ltac:(by left) c Hc). split; [done | by right].
        -- destruct (IH p ltac:(by right) c Hc). split; [done | by right].
Qed.

Lemma normalize_runes (s : list Z) (c : Z) :
  c ∈ normalize s -> exists r, r ∈ s /\ retained r = true /\ c = lowerLetter r.
Proof.
  unfold normalize. rewrite list_elem_of_fmap. intros (r & -> & Hr).
  apply list_elem_of_filter in Hr as [Hret Hr]. by exists r.
Qed.

(** A word out of the tokens of some paragraph. *)
Lemma perParagraph_word (doc : Node) (w : list Z) :
  w ∈ perParagraph doc ->
  w <> [] /\ forall c, c ∈ w ->
    IsSpace c = false
    /\ (c = apostrophe \/ exists r, IsLetter r = true /\ c = ToLower r).
Proof.
  unfold perParagraph. rewrite list_elem_of_In, in_flat_map.
  intros (p & _ & Hw). apply list_elem_of_In in Hw.
  unfold paragraphTokens, tokens in Hw.
  apply list_elem_of_filter in Hw as [Hne Hw]. split; [done|].
  intros c Hc. destruct (pieces_runes _ _ Hw c Hc) as [Hsp Hin].
  split; [done|].
  apply normalize_runes in Hin as (r & _ & Hret & ->).
  unfold lowerLetter, retained in *. destruct (IsLetter r) eqn:Hl.
  - right. by exists r.
  - simpl in Hret. rewrite Hsp in Hret. simpl in Hret.
    left. by apply Z.eqb_eq.
Qed.

End ExtractorMore.

(** X4. Every word [ExtractWordsFromParagraphs] returns is well formed: it
    is not empty, holds no white space, and each of its runes is an
    apostrophe or the lowercase of a letter. *)
Theorem ExtractWordsFromParagraphs_words {U : Unicode} (L : UnicodeLaws U)
    (Parse : list Z -> Node + list Z) (htmlContent : list Z)
    (words : list (list Z)) :
  ExtractWordsFromParagraphs Parse htmlContent = inl words ->
  forall w, w ∈ words ->
    w <> [] /\ forall c, c ∈ w ->
      IsSpace c = false
      /\ (c = apostrophe \/ exists r, IsLetter r = true /\ c = ToLower r).
Proof.
  unfold ExtractWordsFromParagraphs.
  destruct (Parse htmlContent) as [doc|e]; [|discriminate].
  intros [= <-] w. rewrite traverse_perParagraph by done. simpl.
  apply perParagraph_word.
Qed.

Lemma ExtractWordsFromParagraphs_words_witness :
  lit "world's" <> [] /\ forall c, c ∈ lit "world's" ->
    ascii_IsSpace c = false
    /\ (c = apostrophe \/ exists r, ascii_IsLetter r = true /\ c = ascii_ToLower r).
Proof.
  apply (ExtractWordsFromParagraphs_words (U := ascii_unicode) ascii_unicode_laws
           (fun _ => inl example_doc) []
           [lit "hello"; lit "world's"; lit "best"]).
  - vm_compute. reflexivity.
  - right. left.
Defined.

Lemma RemovePunctuation_app_witness :
  RemovePunctuation (U := latin1_unicode)
    (runes ((lit "Caf" ++ [195; 169]) ++ lit " ok!"))
  = RemovePunctuation (U := latin1_unicode) (runes (lit "Caf" ++ [195; 169]))
    ++ RemovePunctuation (U := latin1_unicode) (runes (lit " ok!")).
Proof.
  apply (RemovePunctuation_app (U := latin1_unicode)). reflexivity.
Defined.

(** Where [a] breaks off inside a sequence the two sides differ. *)
Example RemovePunctuation_split_sequence :
  validUTF8 (lit "caf" ++ [195]) = false
  /\ RemovePunctuation (U := latin1_unicode)
       (runes ((lit "caf" ++ [195]) ++ (169 :: lit " ok")))
     = lit "caf" ++ [233] ++ lit " ok"
  /\ RemovePunctuation (U := latin1_unicode) (runes (lit "caf" ++ [195]))
     ++ RemovePunctuation (U := latin1_unicode) (runes (169 :: lit " ok"))
     = lit "caf ok".
Proof. repeat split. Qed.

Lemma RemovePunctuation_idempotent_witness :
  RemovePunctuation (U := ascii_unicode)
    (RemovePunctuation (U := ascii_unicode) (lit "Hello, World's Best!"))
  = RemovePunctuation (U := ascii_unicode) (lit "Hello, World's Best!").
Proof.
  apply (RemovePunctuation_idempotent (U := ascii_unicode) ascii_unicode_laws).
  - intros r. simpl. unfold ascii_IsLetter, ascii_ToLower. intros Hl.
    destruct (Z.leb_spec 65 r), (Z.leb_spec r 90); simpl in *;
      apply orb_true_iff; right; [|exact Hl..].
    apply andb_true_iff. split; apply Z.leb_le; lia.
  - intros r. simpl. unfold ascii_ToLower.
    destruct ((65 <=? r) && (r <=? 90)) eqn:Hup; [|by rewrite Hup].
    apply andb_true_iff in Hup as [Hup _]. apply Z.leb_le in Hup.
    replace (r + 32 <=? 90) with false; [by rewrite andb_false_r|].
    symmetry. apply Z.leb_gt. lia.
Defined.

(** * More about the store *)

Lemma scanRows_reads fl (rows : list (list Z)) :
  forall (used : gset (list Z)) (s : Store),
  used_words (scanRows fl rows used s).2 = used_words s
  /\ pending (scanRows fl rows used s).2 = pending s
  /\ (calls s <= calls (scanRows fl rows used s).2)%nat
  /\ match (scanRows fl rows used s).1 with
     | inl found => found ⊆ list_to_set rows ∪ used
     | inr _ => True
     end.
Proof.
  induction rows as [|w rows IH]; intros used s; simpl.
  - repeat split; [lia | set_solver].
  - destruct (fl (calls s)); simpl; [repeat split; [lia | set_solver]|].
    destruct (fl (S (calls s))); simpl; [repeat split; lia|].
    destruct (IH ({[w]} ∪ used) (tick (tick s))) as (Hu & Hp & Hc & Hsub).
    repeat split; [done | done | simpl in Hc; lia |].
    destruct (scanRows _ _ _ _).1; [set_solver | done].
Qed.

(** Reading leaves the table alone, and gives a set only when there is a
    table. *)
Lemma getUsedWords_table (fl : faults) (language : list Z) (s : Store) :
  used_words (getUsedWords fl language s).2 = used_words s
  /\ match (getUsedWords fl language s).1 with
     | inl _ => used_words s <> None
     | inr _ => True
     end.
Proof.
  unfold getUsedWords, Query. destruct (fl (calls s)); [done|].
  destruct (used_words s) as [rows|] eqn:Hrows; [|done].
  destruct (scanRows_reads fl
              (filter (fun r : list Z * list Z => r.2 = language) rows).*1
              ∅ (tick s)) as (Hu & _).
  simpl in *. split; [by rewrite Hu|]. by destruct (scanRows _ _ _ _).1.
Qed.

(** X7. [getUsedWords] only reads: the table and the open transaction are
    as before, whatever fails; and a set it returns never holds a word that
    is not recorded for the language, even when the iteration breaks off. *)
Theorem getUsedWords_reads (fl : faults) (language : list Z) (s : Store) :
  used_words (getUsedWords fl language s).2 = used_words s
  /\ pending (getUsedWords fl language s).2 = pending s
  /\ match (getUsedWords fl language s).1 with
     | inl found => used_words s <> None /\ found ⊆ recorded language s
     | inr _ => True
     end.
Proof.
  unfold getUsedWords, Query. destruct (fl (calls s)); [done|].
  destruct (used_words s) as [rows|] eqn:Hrows; [|done].
  destruct (scanRows_reads fl
              (filter (fun r : list Z * list Z => r.2 = language) rows).*1
              ∅ (tick s)) as (Hu & Hp & _ & Hsub).
  simpl in *. split; [by rewrite Hu|]. split; [by rewrite Hp|].
  destruct (scanRows _ _ _ _).1; [|done]. split; [done|].
  unfold recorded. rewrite Hrows. simpl. set_solver.
Qed.

Lemma insertAll_appends (words : list (list Z)) (language : list Z) :
  forall rows : list (list Z * list Z),
  exists added, insertAll rows words language = rows ++ added
    /\ forall r, r ∈ added -> r.2 = language /\ r.1 ∈ words.
Proof.
  induction words as [|w words IH]; intros rows; simpl.
  - exists []. split; [by rewrite app_nil_r | intros r Hr; inversion Hr].
  - fold (insertAll (if bool_decide ((w, language) ∈ rows) then rows
                     else rows ++ [(w, language)]) words language).
    destruct (bool_decide _).
    + destruct (IH rows) as (added & -> & Hadd). exists added. split; [done|].
      intros r Hr. destruct (Hadd r Hr). split; [done | by right].
    + destruct (IH (rows ++ [(w, language)])) as (added & -> & Hadd).
      exists ((w, language) :: added). split; [by rewrite <- app_assoc|].
      intros r Hr. apply elem_of_cons in Hr as [->|Hr]; [split; [done | by left]|].
      destruct (Hadd r Hr). split; [done | by right].
Qed.

(** X8. [storeUsedWords] only ever appends, and only for its language:
    whatever the outcome, the rows of the table are still there, in their
    order, followed by rows (word, language) for words of the batch; so no
    recorded word is lost and the words recorded for the other languages are
    unchanged. *)
Theorem storeUsedWords_appends (fl : faults) (words : list (list Z))
    (language : list Z) (s : Store) (rows : list (list Z * list Z)) :
  used_words s = Some rows ->
  (exists added,
      used_words (storeUsedWords fl words language s).2 = Some (rows ++ added)
      /\ forall r, r ∈ added -> r.2 = language /\ r.1 ∈ words)
  /\ (forall l, recorded l s ⊆ recorded l (storeUsedWords fl words language s).2)
  /\ (forall l, l <> language ->
        recorded l (storeUsedWords fl words language s).2 = recorded l s).
Proof.
  intros Hrows.
  assert (Hadd : exists added,
    used_words (storeUsedWords fl words language s).2 = Some (rows ++ added)
    /\ forall r, r ∈ added -> r.2 = language /\ r.1 ∈ words).
  { destruct (storeUsedWords fl words language s) as [err s'] eqn:Hst.
    apply storeUsedWords_outcome in Hst as [_ Hst]. simpl. destruct err.
    - exists []. split; [by rewrite Hst, app_nil_r | intros r Hr; inversion Hr].
    - destruct (insertAll_appends words language rows) as (added & Heq & Hadd).
      exists added. split; [by rewrite (Hst rows Hrows), Heq | done]. }
  split; [exact Hadd|]. destruct Hadd as (added & Hs' & Hadd).
  unfold recorded. rewrite Hs', Hrows. simpl. split.
  - intros l. apply elem_of_subseteq. intros w.
    rewrite !elem_of_list_to_set, !list_elem_of_fmap.
    intros (r & -> & Hr). exists r. split; [done|].
    rewrite filter_app, elem_of_app. by left.
  - intros l Hl. f_equal. rewrite filter_app.
    replace (filter (fun r : list Z * list Z => r.2 = l) added) with
      (@nil (list Z * list Z)); [by rewrite app_nil_r|].
    symmetry. assert (Hall : Forall (fun r : list Z * list Z => r.2 = language) added).
    { apply Forall_forall. intros r Hr. by apply Hadd. }
    clear -Hall Hl. induction Hall as [|r added Hr _ IH]; [done|].
    rewrite filter_cons_False; [done | congruence].
Qed.

Lemma storeUsedWords_appends_witness :
  recorded (lit "fr")
    (storeUsedWords second_insert_fails [lit "a"; lit "b"] (lit "en")
       {| used_words := Some [(lit "x", lit "fr")]; pending := []; calls := 0 |}).2
  = recorded (lit "fr")
      {| used_words := Some [(lit "x", lit "fr")]; pending := []; calls := 0 |}.
Proof.
  apply (storeUsedWords_appends second_insert_fails [lit "a"; lit "b"] (lit "en")
           {| used_words := Some [(lit "x", lit "fr")]; pending := []; calls := 0 |}
           [(lit "x", lit "fr")] eq_refl).
  discriminate.
Defined.

(** X9. Starting again: after an [initDB] that succeeds, a read without
    faults gives the words that were recorded before, none when there was no
    table yet, and never fails for want of the table. *)
Theorem initDB_then_getUsedWords (fl : faults) (language : list Z) (s : Store) :
  (initDB fl s).1 = None ->
  quiet_from fl (calls (initDB fl s).2) ->
  (getUsedWords fl language (initDB fl s).2).1 = inl (recorded language s).
Proof.
  intros Hinit Hq. pose proof (initDB_table fl s) as Ht. rewrite Hinit in Ht.
  rewrite getUsedWords_quiet; [|by rewrite Ht|done].
  unfold recorded. rewrite Ht. done.
Qed.

Lemma initDB_then_getUsedWords_witness :
  (getUsedWords no_faults (lit "en")
     (initDB no_faults {| used_words := None; pending := []; calls := 0 |}).2).1
  = inl (recorded (lit "en") {| used_words := None; pending := []; calls := 0 |}).
Proof.
  apply initDB_then_getUsedWords; [reflexivity|]. intros j _. reflexivity.
Defined.

(** * More about the handler *)

Lemma recorded_elem_of (l w : list Z) (s : Store)
    (rows : list (list Z * list Z)) :
  used_words s = Some rows -> w ∈ recorded l s <-> (w, l) ∈ rows.
Proof.
  intros Hrows. unfold recorded. rewrite Hrows. simpl.
  rewrite elem_of_list_to_set, list_elem_of_fmap. split.
  - intros ([w' l'] & -> & Hr). apply list_elem_of_filter in Hr as [Hl Hr].
    simpl in *. by subst.
  - intros Hr. exists (w, l). split; [done|]. by apply list_elem_of_filter.
Qed.

Section HandlerMore.
Context {U : Unicode} {E : Externals}.

(** What each outcome of the handler says about the table. *)
Lemma pickHandler_outcome (fuel : nat) (rng : source) (fl : faults)
    (r : Request) (s : Store) :
  match (pickHandler fuel rng fl r s).1 with
  | Responded status (Json resp) =>
      status = StatusOK /\ Language resp = languageOf r
      /\ forall w, w ∈ Words resp ->
           w ∈ recorded (languageOf r) (pickHandler fuel rng fl r s).2
  | Responded status (Text _) =>
      status = StatusInternalServerError
      /\ used_words (pickHandler fuel rng fl r s).2 = used_words s
  | HandlerPanicked | HandlerRunning =>
      used_words (pickHandler fuel rng fl r s).2 = used_words s
  end.
Proof.
  unfold pickHandler.
  destruct (http_Get (urlFor (languageOf r))) as [resp|e]; [|done].
  destruct (ReadAll resp) as [body rerr]. simpl.
  destruct (ExtractWordsFromParagraphs html_Parse body) as [words|e]; [|done].
  pose proof (getUsedWords_table fl (languageOf r) s) as (Hu & Hres).
  destruct (getUsedWords fl (languageOf r) s) as [[used|e] s1]; simpl in *;
    [|done].
  pose proof Hres as Ht.
  destruct (PickRandomUniqueWords fuel rng words (countValueOf r) used)
    as [firstNWords| |]; simpl; [|done..].
  destruct (storeUsedWords fl firstNWords (languageOf r) s1) as [err s2] eqn:Hst.
  apply storeUsedWords_outcome in Hst as [_ Hst].
  destruct err; simpl; [split; [done | congruence]|].
  split; [done|]. split; [done|]. intros w Hw.
  destruct (used_words s) as [rows|] eqn:Hrows; [|done].
  specialize (Hst rows Hu).
  apply (recorded_elem_of _ _ _ _ Hst), insertAll_elem_of. right. by exists w.
Qed.

(** X11. The handler writes to the table only when it answers with JSON: a
    JSON answer carries status 200 and the resolved language, and every word
    in it is recorded for that language afterwards; with any other outcome
    (a 500, a panic, a selection that does not end) the table is as it was
    before the request. *)
Theorem pickHandler_persists (fuel : nat) (rng : source) (fl : faults)
    (r : Request) (s : Store) (reply : Reply) (s' : Store) :
  pickHandler fuel rng fl r s = (reply, s') ->
  (forall status resp, reply = Responded status (Json resp) ->
     status = StatusOK /\ Language resp = languageOf r
     /\ forall w, w ∈ Words resp -> w ∈ recorded (languageOf r) s')
  /\ ((forall resp, reply <> Responded StatusOK (Json resp)) ->
      used_words s' = used_words s).
Proof.
  intros Hrun. pose proof (pickHandler_outcome fuel rng fl r s) as Hout.
  rewrite Hrun in Hout. simpl in Hout. split.
  - intros status resp ->. exact Hout.
  - intros Hnot. destruct reply as [status [msg|resp]| |]; try done.
    + by destruct Hout.
    + destruct Hout as (-> & _). by destruct (Hnot resp).
Qed.

(** X10. Without the table (an [initDB] that failed; [main] does not look
    at its result) every request that gets as far as the store is answered
    500, and the table is still missing afterwards. *)
Theorem pickHandler_without_table (fuel : nat) (rng : source) (fl : faults)
    (r : Request) (s : Store) (resp : HttpResponse) (doc : Node) :
  used_words s = None ->
  http_Get (urlFor (languageOf r)) = inl resp ->
  html_Parse (ReadAll resp).1 = inl doc ->
  is500 (pickHandler fuel rng fl r s).1
  /\ used_words (pickHandler fuel rng fl r s).2 = None.
Proof.
  intros Ht Hget Hparse. unfold pickHandler. rewrite Hget.
  destruct (ReadAll resp) as [body rerr]. simpl in *.
  unfold ExtractWordsFromParagraphs. rewrite Hparse.
  pose proof (getUsedWords_table fl (languageOf r) s) as (Hu & Hres).
  destruct (getUsedWords fl (languageOf r) s) as [[used|e] s1]; simpl in *.
  - done.
  - split; [by eexists | congruence].
Qed.

(** X13. With a count that is not below the number of words of the article
    the whole pool is served, in document order and with its repetitions,
    whatever has been served before. *)
Theorem pickHandler_whole_pool (fuel : nat) (rng : source) (fl : faults)
    (r : Request) (s s1 s2 : Store) (resp : HttpResponse)
    (words : list (list Z)) (usedBefore : gset (list Z)) :
  http_Get (urlFor (languageOf r)) = inl resp ->
  ExtractWordsFromParagraphs html_Parse (ReadAll resp).1 = inl words ->
  getUsedWords fl (languageOf r) s = (inl usedBefore, s1) ->
  countValueOf r >= Z.of_nat (length words) ->
  storeUsedWords fl words (languageOf r) s1 = (None, s2) ->
  pickHandler fuel rng fl r s
  = (Responded StatusOK (Json {| Language := languageOf r; Words := words |}),
     s2).
Proof.
  intros Hget Hext Hused Hn Hst. unfold pickHandler. rewrite Hget.
  destruct (ReadAll resp) as [body rerr]. simpl in *. rewrite Hext, Hused.
  unfold PickRandomUniqueWords.
  destruct (Z.geb_spec (countValueOf r) (Z.of_nat (length words))); [|lia].
  by rewrite Hst.
Qed.

(** X14. A negative count makes the handler panic once the store has been
    read, and before anything is written. *)
Theorem pickHandler_negative_count (fuel : nat) (rng : source) (fl : faults)
    (r : Request) (s s1 : Store) (resp : HttpResponse)
    (words : list (list Z)) (usedBefore : gset (list Z)) :
  countValueOf r < 0 ->
  http_Get (urlFor (languageOf r)) = inl resp ->
  ExtractWordsFromParagraphs html_Parse (ReadAll resp).1 = inl words ->
  getUsedWords fl (languageOf r) s = (inl usedBefore, s1) ->
  pickHandler fuel rng fl r s = (HandlerPanicked, s1)
  /\ used_words s1 = used_words s.
Proof.
  intros Hn Hget Hext Hused. split.
  - unfold pickHandler. rewrite Hget.
    destruct (ReadAll resp) as [body rerr]. simpl in *. rewrite Hext, Hused.
    unfold PickRandomUniqueWords.
    destruct (Z.geb_spec (countValueOf r) (Z.of_nat (length words))); [lia|].
    by destruct (Z.ltb_spec (countValueOf r) 0); [|lia].
  - pose proof (getUsedWords_table fl (languageOf r) s) as (Hu & _).
    by rewrite Hused in Hu.
Qed.

End HandlerMore.

(** X12. No word is served twice: when a request has been answered 200 and
    a later request for the same language, whose read of the store meets no
    fault and whose count is below the number of words of its article, is
    answered 200 as well, no word of the second answer is in the first. *)
Theorem pickHandler_no_repeat {U : Unicode} (E1 E2 : Externals)
    (fuel1 fuel2 : nat) (rng1 rng2 : source) (fl : faults)
    (r1 r2 : Request) (s s1 s2 : Store) (resp1 resp2 : Response)
    (fetched : HttpResponse) (pool : list (list Z)) :
  pickHandler (E := E1) fuel1 rng1 fl r1 s
    = (Responded StatusOK (Json resp1), s1) ->
  pickHandler (E := E2) fuel2 rng2 fl r2 s1
    = (Responded StatusOK (Json resp2), s2) ->
  languageOf r2 = languageOf r1 ->
  quiet_from fl (calls s1) ->
  http_Get (Externals := E2) (urlFor (languageOf r2)) = inl fetched ->
  ExtractWordsFromParagraphs (html_Parse (Externals := E2)) (ReadAll fetched).1
    = inl pool ->
  countValueOf r2 < Z.of_nat (length pool) ->
  forall w, w ∈ Words resp2 -> w ∉ Words resp1.
Proof.
  intros H1 H2 Hlang Hq Hget Hext Hn w Hw2 Hw1.
  pose proof (pickHandler_outcome (E := E1) fuel1 rng1 fl r1 s) as Hp.
  rewrite H1 in Hp. simpl in Hp. destruct Hp as (_ & _ & Hrec).
  specialize (Hrec w Hw1). rewrite <- Hlang in Hrec.
  pose proof (getUsedWords_table fl (languageOf r2) s1) as (_ & Hres).
  destruct (getUsedWords fl (languageOf r2) s1) as [used s1'] eqn:Hused.
  pose proof (f_equal fst H2) as H2'. simpl in H2'.
  destruct used as [used|e]; simpl in Hres.
  - pose proof Hres as Ht.
    pose proof (getUsedWords_quiet fl (languageOf r2) s1 Ht Hq) as Hall.
    rewrite Hused in Hall. simpl in Hall. injection Hall as ->.
    rewrite (pickHandler_selection (E := E2) _ _ _ _ _ _ _ _ _ Hget Hext Hused)
      in H2'.
    destruct (PickRandomUniqueWords fuel2 rng2 pool (countValueOf r2)
                (recorded (languageOf r2) s1)) as [ws| |] eqn:Hpick;
      [|discriminate..].
    destruct (storeUsedWords fl ws (languageOf r2) s1').1; [discriminate|].
    injection H2' as <-. simpl in Hw2.
    destruct (PickRandomUniqueWords_returned _ _ _ _ _ _ Hn Hpick) as (Hu & _).
    by apply (Hu w).
  - destruct (pickHandler_read_store_error (E := E2) fuel2 rng2 fl r2 s1 s1'
                fetched pool e Hget Hext Hused) as [msg Hmsg].
    rewrite H2' in Hmsg. discriminate.
Qed.

Lemma pickHandler_persists_witness :
  lit "hello" ∈ recorded (lit "en")
    (pickHandler (U := ascii_unicode) (E := example_world) 4 (fun i => i)
       no_faults {| RawQuery := [(lit "count", lit "1")] |} fresh_store).2.
Proof.
  refine (proj2 (proj2 (proj1
    (pickHandler_persists (U := ascii_unicode) (E := example_world) 4
       (fun i => i) no_faults {| RawQuery := [(lit "count", lit "1")] |}
       fresh_store
       (Responded StatusOK (Json {| Language := lit "en"; Words := [lit "hello"] |}))
       _ _) StatusOK _ eq_refl)) (lit "hello") _).
  - vm_compute. reflexivity.
  - by left.
Defined.

Lemma pickHandler_without_table_witness :
  is500 (pickHandler (U := ascii_unicode) (E := example_world) 0 (fun _ => O)
           no_faults {| RawQuery := [] |} tableless_store).1.
Proof.
  apply (pickHandler_without_table (U := ascii_unicode) (E := example_world)
           0 (fun _ => O) no_faults {| RawQuery := [] |} tableless_store
           example_response example_doc);
    reflexivity.
Defined.

Lemma pickHandler_whole_pool_witness :
  (pickHandler (U := ascii_unicode) (E := example_world) 0 (fun _ => O)
     no_faults {| RawQuery := [] |} served_store).1
  = Responded StatusOK
      (Json {| Language := lit "en";
               Words := [lit "hello"; lit "world's"; lit "best"] |}).
Proof.
  erewrite (pickHandler_whole_pool (U := ascii_unicode) (E := example_world));
    [ reflexivity
    | vm_compute; reflexivity
    | vm_compute; reflexivity
    | vm_compute; reflexivity
    | vm_compute; discriminate
    | vm_compute; reflexivity ].
Defined.

Lemma pickHandler_negative_count_witness :
  (pickHandler (U := ascii_unicode) (E := example_world) 5 (fun i => i)
     no_faults {| RawQuery := [(lit "count", lit "-1")] |} fresh_store).1
  = HandlerPanicked.
Proof.
  refine (f_equal fst
    (proj1 (pickHandler_negative_count (U := ascii_unicode) (E := example_world)
              5 (fun i => i) no_faults
              {| RawQuery := [(lit "count", lit "-1")] |} fresh_store
              (getUsedWords no_faults (lit "en") fresh_store).2
              example_response [lit "hello"; lit "world's"; lit "best"] ∅
              _ _ _ _))).
  all: vm_compute; reflexivity.
Defined.

Lemma pickHandler_no_repeat_witness :
  lit "world's" ∉ [lit "hello"].
Proof.
  refine (pickHandler_no_repeat (U := ascii_unicode) example_world example_world
           4 4 (fun i => i) (fun i => i) no_faults
           {| RawQuery := [(lit "count", lit "1")] |}
           {| RawQuery := [(lit "count", lit "1")] |}
           fresh_store
           (pickHandler (U := ascii_unicode) (E := example_world) 4 (fun i => i)
              no_faults {| RawQuery := [(lit "count", lit "1")] |} fresh_store).2
           (pickHandler (U := ascii_unicode) (E := example_world) 4 (fun i => i)
              no_faults {| RawQuery := [(lit "count", lit "1")] |}
              (pickHandler (U := ascii_unicode) (E := example_world) 4
                 (fun i => i) no_faults
                 {| RawQuery := [(lit "count", lit "1")] |} fresh_store).2).2
           {| Language := lit "en"; Words := [lit "hello"] |}
           {| Language := lit "en"; Words := [lit "world's"] |}
           example_response [lit "hello"; lit "world's"; lit "best"]
           _ _ _ _ _ _ _ (lit "world's") _).
  - vm_compute. reflexivity.
  - vm_compute. reflexivity.
  - reflexivity.
  - intros j _. reflexivity.
  - reflexivity.
  - vm_compute. reflexivity.
  - vm_compute. reflexivity.
  - by left.
Defined.

(** A failing [rows.Next] ends the loop like the end of the rows. *)
Lemma scanRows_broken fl (rows : list (list Z)) :
  forall (used : gset (list Z)) (s : Store) (k : nat) (e : list Z),
  (k < length rows)%nat ->
  (forall m, (calls s <= m < calls s + 2 * k)%nat -> fl m = None) ->
  fl (calls s + 2 * k)%nat = Some e ->
  (scanRows fl rows used s).1 = inl (list_to_set (take k rows) ∪ used).
Proof.
  induction rows as [|w rows IH]; intros used s k e Hk Hq He;
    [simpl in Hk; lia|]. cbn [scanRows].
  destruct k as [|k].
  - replace (calls s + 2 * 0)%nat with (calls s) in He by lia. rewrite He.
    simpl. f_equal. set_solver.
  - rewrite (Hq (calls s)) by lia. cbn [tick calls].
    rewrite (Hq (S (calls s))) by lia.
    rewrite (IH _ (tick (tick s)) k e); cbn [tick calls].
    + f_equal. rewrite firstn_cons. set_solver.
    + simpl in Hk. lia.
    + intros m Hm. apply Hq. lia.
    + by replace (S (S (calls s)) + 2 * k)%nat with (calls s + 2 * S k)%nat by lia.
Qed.

(** X15. When [rows.Next] fails at the [k]-th row and nothing failed
    before, [getUsedWords] returns the words of the rows before it together
    with a nil error: the failure is not reported. *)
Theorem getUsedWords_broken (fl : faults) (language : list Z) (s : Store)
    (rows : list (list Z * list Z)) (k : nat) (e : list Z) :
  used_words s = Some rows ->
  (k < length (filter (fun r : list Z * list Z => r.2 = language) rows))%nat ->
  (forall m, (calls s <= m < calls s + 1 + 2 * k)%nat -> fl m = None) ->
  fl (calls s + 1 + 2 * k)%nat = Some e ->
  (getUsedWords fl language s).1
  = inl (list_to_set
           (take k (filter (fun r : list Z * list Z => r.2 = language) rows).*1)).
Proof.
  intros Hrows Hk Hq He. unfold getUsedWords, Query.
  rewrite (Hq (calls s)) by lia. rewrite Hrows.
  rewrite (scanRows_broken fl _ ∅ (tick s) k e); cbn [tick calls].
  - f_equal. set_solver.
  - by rewrite length_fmap.
  - intros m Hm. apply Hq. lia.
  - by replace (S (calls s) + 2 * k)%nat with (calls s + 1 + 2 * k)%nat by lia.
Qed.

Lemma getUsedWords_broken_witness :
  (getUsedWords second_insert_fails (lit "en")
     {| used_words := Some [(lit "a", lit "en"); (lit "b", lit "en")];
        pending := []; calls := 0 |}).1
  = inl (list_to_set
           (take 1 (filter (fun r : list Z * list Z => r.2 = lit "en")
                      [(lit "a", lit "en"); (lit "b", lit "en")]).*1)).
Proof.
  apply (getUsedWords_broken second_insert_fails (lit "en")
           {| used_words := Some [(lit "a", lit "en"); (lit "b", lit "en")];
              pending := []; calls := 0 |}
           [(lit "a", lit "en"); (lit "b", lit "en")] 1
           (lit "disk I/O error") eq_refl).
  - vm_compute. lia.
  - intros m Hm. simpl in Hm. destruct m as [|[|[|m]]]; [reflexivity..|lia].
  - reflexivity.
Defined.
